(** * Z1_assistant: build-up slide navigation for a layered image

    A shallow embedding of [layers_visibility.py] (a GIMP Python-Fu plug-in)
    and the properties of its label parser, adjacency resolver,
    visibility updater and step controller. *)

From Stdlib Require Import ZArith String Ascii DecimalString DecimalPos
  DecimalZ.
From stdpp Require Import base tactics option list sorting gmap strings.

Local Open Scope string_scope.
Local Open Scope list_scope.
Local Open Scope Z_scope.

(** ** Python values the plug-in relies on *)

(** The exceptions the code can raise.  [ValueError] carries its message. *)
Inductive exn :=
  | ValueError (msg : string)
  | IndexError
  | AttributeError.

(** Outcome of an expression that either yields a value or raises. *)
Inductive result (A : Type) :=
  | Ok (a : A)
  | Raise (e : exn).
Arguments Ok {A} a.
Arguments Raise {A} e.

Module Py.

(** [s.startswith(prefix)] *)
Fixpoint startswith (s prefix : string) : bool :=
  match prefix, s with
  | EmptyString, _ => true
  | String _ _, EmptyString => false
  | String b prefix', String a s' => Ascii.eqb a b && startswith s' prefix'
  end.

(** Position of the first occurrence of the character [c] in [s], counted
    from [pos] on. *)
Fixpoint find_char (c : ascii) (s : string) (pos : nat) : option nat :=
  match s with
  | EmptyString => None
  | String a s' => if Ascii.eqb a c then Some pos else find_char c s' (S pos)
  end.

(** Drop the first [n] characters. *)
Fixpoint drop (n : nat) (s : string) : string :=
  match n, s with
  | O, _ => s
  | S _, EmptyString => EmptyString
  | S n', String _ s' => drop n' s'
  end.

(** Keep the first [n] characters. *)
Fixpoint take (n : nat) (s : string) : string :=
  match n, s with
  | O, _ => EmptyString
  | S _, EmptyString => EmptyString
  | S n', String a s' => String a (take n' s')
  end.

(** [s.index(c, start)] for a one-character needle: the lowest index
    [>= start] holding [c]; [None] stands for the [ValueError] Python
    raises when there is none. *)
Definition index (s : string) (c : ascii) (start : nat) : option nat :=
  find_char c (drop start s) start.

(** [s[lo:hi]] for non-negative bounds. *)
Definition slice (s : string) (lo hi : nat) : string :=
  take (hi - lo) (drop lo s).

(** The characters [int()] strips from both ends of its argument. *)
Definition isspace (a : ascii) : bool :=
  let n := nat_of_ascii a in
  ((9 <=? n) && (n <=? 13))%nat || (n =? 32)%nat.

Fixpoint lstrip (s : string) : string :=
  match s with
  | EmptyString => EmptyString
  | String a s' => if isspace a then lstrip s' else s
  end.

Fixpoint rstrip (s : string) : string :=
  match s with
  | EmptyString => EmptyString
  | String a s' =>
      match rstrip s' with
      | EmptyString => if isspace a then EmptyString else String a EmptyString
      | r => String a r
      end
  end.

Definition strip (s : string) : string := rstrip (lstrip s).

(** Value of a decimal digit character. *)
Definition digit (a : ascii) : option Z :=
  let n := nat_of_ascii a in
  if ((48 <=? n) && (n <=? 57))%nat then Some (Z.of_nat n - 48) else None.

(** Value of a string made of decimal digits only, continuing from [acc]. *)
Fixpoint digits (acc : Z) (s : string) : option Z :=
  match s with
  | EmptyString => Some acc
  | String a s' =>
      match digit a with
      | Some d => digits (10 * acc + d) s'
      | None => None
      end
  end.

(** A non-empty run of decimal digits. *)
Definition unsigned (s : string) : option Z :=
  match s with
  | EmptyString => None
  | _ => digits 0 s
  end.

(** [int(s)] on a byte string, base 10: surrounding whitespace is
    stripped, then an optional sign and at least one digit are expected.
    [None] stands for the [ValueError] raised on anything else. *)
Definition int (s : string) : option Z :=
  match strip s with
  | String "+" r => unsigned r
  | String "-" r => Z.opp <$> unsigned r
  | t => unsigned t
  end.

(** [str(n)] for an integer: its decimal digits, with a leading minus sign
    for negative numbers. *)
Definition str (n : Z) : string := NilZero.string_of_int (Z.to_int n).

(** [sorted(l)] on a list of integers. *)
Definition sorted (l : list Z) : list Z := merge_sort Z.le l.

(** [l[i]] with Python's reading of negative indices; [IndexError] when
    the index falls outside the list. *)
Definition getitem {A} (l : list A) (i : Z) : result A :=
  let j := if i <? 0 then i + Z.of_nat (length l) else i in
  if j <? 0 then Raise IndexError
  else match l !! Z.to_nat j with
       | Some x => Ok x
       | None => Raise IndexError
       end.

(** [x == y] where [y] may be [None]: an integer never equals [None]. *)
Definition eq_opt (x : Z) (y : option Z) : bool :=
  match y with
  | Some y' => x =? y'
  | None => false
  end.

(** [max(a, b, c, d)] *)
Definition max4 (a b c d : Z) : Z := Z.max (Z.max (Z.max a b) c) d.

End Py.

(** ** Constants of the plug-in *)

Definition TOPMOST_OPACITY : Z := 100.
Definition FADING_COLORS : list string :=
  ["#A0A0A0"; "#FF0000"; "#00FF00"; "#0000FF"].

(** ** adjacent_label *)

(** The [for label in ...: if test(label): return label] loops. *)
Fixpoint first_such (test : Z → bool) (l : list Z) : option Z :=
  match l with
  | [] => None
  | label :: l' => if test label then Some label else first_such test l'
  end.

Definition adjacent_label (labels : list Z) (current_step : Z)
    (direction : bool) : result Z :=
  let sorted_labels := Py.sorted labels in
  if direction then
    match first_such (λ label, label >? current_step) sorted_labels with
    | Some label => Ok label
    | None => Py.getitem sorted_labels (-1)
    end
  else
    match first_such (λ label, label <? current_step)
            (reverse sorted_labels) with
    | Some label => Ok label
    | None => Py.getitem sorted_labels 0
    end.

(** ** The host document

    The plug-in sees the image through the host's procedures only.  An item
    of the layer tree carries what those procedures read and write: its
    name, what kind of item it is, visibility, opacity, the string of a text
    layer, the colour a drawable was last flood-filled with ([None] while it
    still holds its own pixels), and its child items. *)

#[warnings="-register-all"]
Inductive item := Item {
  name : string;
  is_group : bool;        (* pdb.gimp_item_is_group *)
  is_layer : bool;        (* pdb.gimp_item_is_layer *)
  is_text_layer : bool;   (* pdb.gimp_item_is_text_layer *)
  visible : bool;
  opacity : Z;            (* percent *)
  text : string;          (* pdb.gimp_text_layer_get_text *)
  fill : option string;   (* pdb.gimp_drawable_fill *)
  children : list item
}.

(** The host state the plug-in works on: the top-level layers of the image
    ([image.layers]) and the foreground colour of the drawing context. *)
Record gimp := Gimp {
  layers : list item;
  foreground : string
}.

(** Items are handed around by reference.  The [ID] of a top-level layer is
    its position in [image.layers]; a member of a group is reached through
    the group.  Both stay put while the plug-in runs: it never adds, removes
    or reorders items. *)
Inductive handle :=
  | Top (ID : nat)
  | Child (ID : nat) (j : nat).

Definition with_visible (b : bool) (it : item) : item :=
  Item (name it) (is_group it) (is_layer it) (is_text_layer it)
       b (opacity it) (text it) (fill it) (children it).
Definition with_opacity (o : Z) (it : item) : item :=
  Item (name it) (is_group it) (is_layer it) (is_text_layer it)
       (visible it) o (text it) (fill it) (children it).
Definition with_text (t : string) (it : item) : item :=
  Item (name it) (is_group it) (is_layer it) (is_text_layer it)
       (visible it) (opacity it) t (fill it) (children it).
Definition with_fill (c : string) (it : item) : item :=
  Item (name it) (is_group it) (is_layer it) (is_text_layer it)
       (visible it) (opacity it) (text it) (Some c) (children it).
Definition with_children (f : list item → list item) (it : item) : item :=
  Item (name it) (is_group it) (is_layer it) (is_text_layer it)
       (visible it) (opacity it) (text it) (fill it) (f (children it)).

(** Change the item a handle refers to, in place. *)
Definition update (f : item → item) (h : handle) (image : gimp) : gimp :=
  match h with
  | Top i => Gimp (alter f i (layers image)) (foreground image)
  | Child i j =>
      Gimp (alter (with_children (alter f j)) i (layers image))
           (foreground image)
  end.

(** [gimp.Item.from_id(ID)]: the item, or [None] when the host knows none
    by that [ID]. *)
Definition Item_from_id (ID : nat) (image : gimp) : option handle :=
  match layers image !! ID with
  | Some _ => Some (Top ID)
  | None => None
  end.

(** [for layer in image.layers], each layer with its [ID]. *)
Definition enumerate {A} (l : list A) : list (nat * A) := imap pair l.

(** ** Stateful code: the host state is threaded through, and an exception
    leaves it as it was when raised. *)

Definition M (A : Type) : Type := gimp → result A * gimp.

Definition ret {A} (a : A) : M A := λ image, (Ok a, image).
Definition raise {A} (e : exn) : M A := λ image, (Raise e, image).
Definition bind {A B} (m : M A) (k : A → M B) : M B :=
  λ image,
    match m image with
    | (Ok a, image') => k a image'
    | (Raise e, image') => (Raise e, image')
    end.
Definition gets {A} (f : gimp → A) : M A := λ image, (Ok (f image), image).
Definition modify (f : gimp → gimp) : M unit := λ image, (Ok tt, f image).
Definition lift {A} (r : result A) : M A := λ image, (r, image).

Declare Scope gimp_scope.
Delimit Scope gimp_scope with gimp.
Notation "x <- m ;; k" := (bind m (λ x, k))
  (at level 100, m at next level, right associativity) : gimp_scope.
Notation "m ;; k" := (bind m (λ _, k))
  (at level 100, right associativity) : gimp_scope.
Local Open Scope gimp_scope.

(** [for x in l: body(x)] *)
Fixpoint for_each {A} (l : list A) (body : A → M unit) : M unit :=
  match l with
  | [] => ret tt
  | x :: l' => body x ;; for_each l' body
  end.

(** *** Host procedures *)

Definition set_visible (h : handle) (b : bool) : M unit :=
  modify (update (with_visible b) h).
Definition gimp_layer_set_opacity (h : handle) (o : Z) : M unit :=
  modify (update (with_opacity o) h).
Definition gimp_text_layer_set_text (h : handle) (t : string) : M unit :=
  modify (update (with_text t) h).
Definition gimp_context_set_foreground (c : string) : M unit :=
  modify (λ image, Gimp (layers image) c).
(** [pdb.gimp_drawable_fill(h, FILL_FOREGROUND)] *)
Definition gimp_drawable_fill_foreground (h : handle) : M unit :=
  modify (λ image, update (with_fill (foreground image)) h image).
Definition gimp_displays_flush : M unit := ret tt.

(** ** extract_relevant_groups *)

(** One round of the loop over [image.layers]; a [ValueError] from
    [index] or [int] is caught and the layer skipped. *)
Definition extract_layer (relevant_groups : gmap Z nat) (entry : nat * item)
    : gmap Z nat :=
  let '(ID, layer) := entry in
  if is_group layer then
    if Py.startswith (name layer) "#" then
      match Py.index (name layer) "#" 1 with
      | Some end_index =>
          match Py.int (Py.slice (name layer) 1 end_index) with
          | Some label => <[label := ID]> relevant_groups
          | None => relevant_groups
          end
      | None => relevant_groups
      end
    else relevant_groups
  else relevant_groups.

Definition extract_relevant_groups (image : gimp) : gmap Z nat :=
  foldl extract_layer ∅ (enumerate (layers image)).

(** ** get_member_layer *)

Fixpoint first_member (prefix : string) (members : list item) (j : nat)
    : option nat :=
  match members with
  | [] => None
  | member :: rest =>
      if is_layer member && Py.startswith (name member) prefix
      then Some j
      else first_member prefix rest (S j)
  end.

Definition get_member_layer (group_layer : nat) (prefix : string)
    (image : gimp) : option handle :=
  match layers image !! group_layer with
  | Some g => Child group_layer <$> first_member prefix (children g) 0
  | None => None
  end.

(** ** update_visibility *)

(** [list(groups.keys())] and [groups.items()] walk the dictionary in the
    same order. *)
Definition keys (groups : gmap Z nat) : list Z := (map_to_list groups).*1.

(** The labels of the two layers below the current step, [None] where
    there is none yet. *)
Definition from_top (labels : list Z) (step : Z)
    : result (option Z * option Z) :=
  match adjacent_label labels step false with
  | Raise e => Raise e
  | Ok second_from_top =>
      match adjacent_label labels second_from_top false with
      | Raise e => Raise e
      | Ok third_from_top =>
          let third_from_top' :=
            if third_from_top =? second_from_top then None
            else Some third_from_top in
          let second_from_top' :=
            if second_from_top =? step then None
            else Some second_from_top in
          Ok (second_from_top', third_from_top')
      end
  end.

(** The index into [FADING_COLORS]. *)
Definition color_index (step : Z) (second_from_top third_from_top : option Z)
    (label : Z) : Z :=
  Z.min (Z.of_nat (length FADING_COLORS))
    (Py.max4 0
       (1 * Z.b2z (label =? step))
       (2 * Z.b2z (Py.eq_opt label second_from_top))
       (3 * Z.b2z (Py.eq_opt label third_from_top))).

(** The body of the loop over [groups.items()]. *)
Definition update_group (step : Z) (second_from_top third_from_top : option Z)
    (entry : Z * nat) : M unit :=
  let '(label, group_id) := entry in
  group_layer <- gets (Item_from_id group_id) ;;
  match group_layer with
  | None => raise AttributeError
  | Some group_layer =>
      if label >? step then
        set_visible group_layer false
      else
        set_visible group_layer true ;;
        gimp_layer_set_opacity group_layer
          (if label =? step then TOPMOST_OPACITY else 100) ;;
        hint_layer <- gets (get_member_layer group_id "hint") ;;
        match hint_layer with
         | Some hint_layer => set_visible hint_layer (label =? step)
         | None => ret tt
         end ;;
        color_layer <- gets (get_member_layer group_id "color") ;;
        match color_layer with
        | Some color_layer =>
            color <- lift (Py.getitem FADING_COLORS
                        (color_index step second_from_top third_from_top
                           label)) ;;
            gimp_context_set_foreground color ;;
            gimp_drawable_fill_foreground color_layer
        | None => ret tt
        end
  end.

(** The loop walks the pairs of the label map in the map's own order, which
    need not be the order in which Python's dictionary yields them.  With one
    group per label the layers come out the same in any order; only the
    foreground colour left in the context, and the writes done before an
    [AttributeError], depend on it. *)
Definition update_visibility (groups : gmap Z nat) (step : Z) : M unit :=
  tops <- lift (from_top (keys groups) step) ;;
  for_each (map_to_list groups) (update_group step tops.1 tops.2).

(** ** update_step *)

Fixpoint first_step_layer (ls : list (nat * item)) : option (nat * item) :=
  match ls with
  | [] => None
  | (ID, layer) :: rest =>
      if is_text_layer layer && String.eqb (name layer) "step"
      then Some (ID, layer)
      else first_step_layer rest
  end.

Definition update_step (direction : bool) : M unit :=
  step_layer <- gets (λ image, first_step_layer (enumerate (layers image))) ;;
  match step_layer with
  | None => raise (ValueError "Text layer named 'step' not found in the image.")
  | Some (step_id, step_layer) =>
      match Py.int (text step_layer) with
      | None =>
          raise (ValueError
                   "The text layer 'step' must contain a valid integer.")
      | Some current_step =>
          groups <- gets extract_relevant_groups ;;
          new_step <- lift (adjacent_label (keys groups) current_step
                              direction) ;;
          gimp_text_layer_set_text (Top step_id) (Py.str new_step) ;;
          update_visibility groups new_step
      end
  end.

Definition increase_step : M unit := update_step true ;; gimp_displays_flush.
Definition decrease_step : M unit := update_step false ;; gimp_displays_flush.

(** ** Vocabulary of the properties *)

(** [v] is the smallest label strictly greater than [x]. *)
Definition least_above (labels : list Z) (x v : Z) : Prop :=
  v ∈ labels ∧ x < v ∧ ∀ y, y ∈ labels → x < y → v ≤ y.

(** [v] is the greatest label strictly smaller than [x]. *)
Definition greatest_below (labels : list Z) (x v : Z) : Prop :=
  v ∈ labels ∧ v < x ∧ ∀ y, y ∈ labels → y < x → y ≤ v.

Definition maximum (labels : list Z) (v : Z) : Prop :=
  v ∈ labels ∧ ∀ y, y ∈ labels → y ≤ v.

Definition minimum (labels : list Z) (v : Z) : Prop :=
  v ∈ labels ∧ ∀ y, y ∈ labels → v ≤ y.

(** The resolver on a finite set of labels. *)
Definition adjacent (S : gset Z) (reference : Z) (direction : bool)
    : result Z :=
  adjacent_label (elements S) reference direction.

(** The boundary behaviour with the extremes exchanged: the minimum once the
    reference has reached the maximum, the maximum once it has reached the
    minimum. *)
Definition wraps_around (S : gset Z) (x : Z) : Prop :=
  (∀ hi lo, maximum (elements S) hi → minimum (elements S) lo →
     hi ≤ x → adjacent S x true = Ok lo) ∧
  (∀ hi lo, maximum (elements S) hi → minimum (elements S) lo →
     x ≤ lo → adjacent S x false = Ok hi).

(** *** The per-group rule, in the words of the specification *)

(** Recency rank of a group: 1 for the current step, 2 and 3 for its two
    predecessors, 0 for anything older. *)
Definition recency_rank (current_step : Z) (second third : option Z)
    (label : Z) : nat :=
  if label =? current_step then 1%nat
  else if Py.eq_opt label second then 2%nat
  else if Py.eq_opt label third then 3%nat
  else 0%nat.

(** Palette entry at a rank. *)
Definition palette (r : nat) : string :=
  match FADING_COLORS !! r with
  | Some c => c
  | None => ""
  end.

(** Apply [f] to the first member of group [g] whose name starts with
    [prefix], if there is one. *)
Definition on_member (prefix : string) (f : item → item) (g : item) : item :=
  match first_member prefix (children g) 0 with
  | Some j => with_children (alter f j) g
  | None => g
  end.

Definition has_member (prefix : string) (g : item) : bool :=
  bool_decide (is_Some (first_member prefix (children g) 0)).

(** What the rule makes of a group with label [label]. *)
Definition group_rule (current_step : Z) (second third : option Z)
    (label : Z) (g : item) : item :=
  if label >? current_step then with_visible false g
  else
    on_member "color"
      (with_fill (palette (recency_rank current_step second third label)))
      (on_member "hint" (with_visible (label =? current_step))
         (with_opacity (if label =? current_step then TOPMOST_OPACITY else 100)
            (with_visible true g))).

(** The rule applied to one [(label, group)] pair of the label map.  The
    fill goes through the foreground colour of the context, which keeps the
    colour of the last fill. *)
Definition apply_rule (current_step : Z) (second third : option Z)
    (image : gimp) (entry : Z * nat) : gimp :=
  let '(label, ID) := entry in
  Gimp (alter (group_rule current_step second third label) ID (layers image))
       (match layers image !! ID with
        | Some g =>
            if negb (label >? current_step) && has_member "color" g
            then palette (recency_rank current_step second third label)
            else foreground image
        | None => foreground image
        end).

(** Every group of the label map is a live top-level layer. *)
Definition live (groups : gmap Z nat) (image : gimp) : Prop :=
  ∀ label ID, groups !! label = Some ID → is_Some (layers image !! ID).

(** *** Step groups *)

(** The label a top-level layer contributes to the label map, if any. *)
Definition label_of (layer : item) : option Z :=
  if is_group layer && Py.startswith (name layer) "#" then
    match Py.index (name layer) "#" 1 with
    | Some end_index => Py.int (Py.slice (name layer) 1 end_index)
    | None => None
    end
  else None.

(** A step group with label [label]: a group whose name starts with "#",
    has a further "#" -- the first one after position 0 sits at
    [end_index] -- and whose text between the two parses as [label]. *)
Definition step_group (layer : item) (label : Z) : Prop :=
  is_group layer = true ∧
  Py.startswith (name layer) "#" = true ∧
  ∃ end_index : nat,
    (1 ≤ end_index)%nat ∧
    String.get end_index (name layer) = Some "#"%char ∧
    (∀ k : nat, (1 ≤ k < end_index)%nat →
       String.get k (name layer) ≠ Some "#"%char) ∧
    Py.int (Py.slice (name layer) 1 end_index) = Some label.

(** *** What can be seen of a group *)

(** The first member of a group whose name starts with [prefix]. *)
Definition member_of (prefix : string) (g : item) : option item :=
  match first_member prefix (children g) 0 with
  | Some j => children g !! j
  | None => None
  end.

(** Visibility of the hint member, when the group has one. *)
Definition hint_visible (g : item) : option bool :=
  visible <$> member_of "hint" g.

(** Fill of the colour member, when the group has one. *)
Definition color_fill (g : item) : option (option string) :=
  fill <$> member_of "color" g.

(** Distinct labels of a label map stand for distinct groups. *)
Definition distinct_groups (groups : gmap Z nat) : Prop :=
  ∀ l1 l2 ID, groups !! l1 = Some ID → groups !! l2 = Some ID → l1 = l2.

(** Group [ID], shown: visible with opacity [o], its hint member (if any)
    visible exactly when [h], its colour member (if any) filled with [c]. *)
Definition shown_with (before after : gimp) (ID : nat) (o : Z) (h : bool)
    (c : string) : Prop :=
  ∃ g g', layers before !! ID = Some g ∧ layers after !! ID = Some g' ∧
          visible g' = true ∧ opacity g' = o ∧
          hint_visible g' = (λ _, h) <$> hint_visible g ∧
          color_fill g' = (λ _, Some c) <$> color_fill g.

(** Group [ID], hidden: made invisible and left alone otherwise. *)
Definition hidden_in (before after : gimp) (ID : nat) : Prop :=
  ∃ g, layers before !! ID = Some g ∧
       layers after !! ID = Some (with_visible false g).

(** *** The Step Marker *)

(** What the scans over [image.layers] read of a layer. *)
Definition outline (it : item) : string * bool * bool :=
  (name it, is_group it, is_text_layer it).

(** [layer], at position [ID], is the Step Marker: the first top-level text
    layer named exactly "step". *)
Definition marker_at (image : gimp) (ID : nat) (layer : item) : Prop :=
  layers image !! ID = Some layer ∧
  is_text_layer layer = true ∧ name layer = "step" ∧
  ∀ ID' layer', (ID' < ID)%nat → layers image !! ID' = Some layer' →
                ¬ (is_text_layer layer' = true ∧ name layer' = "step").

(** No top-level text layer is named "step". *)
Definition no_marker (image : gimp) : Prop :=
  ∀ ID layer, layers image !! ID = Some layer →
              ¬ (is_text_layer layer = true ∧ name layer = "step").

(** The two errors of the step controller. *)
Definition missing_marker : exn :=
  ValueError "Text layer named 'step' not found in the image.".
Definition invalid_content : exn :=
  ValueError "The text layer 'step' must contain a valid integer.".

(** *** A document to try things on

    Three step groups, stacked out of order, each with a drawing, a hint and
    a colour member; the step marker; a background layer.  The document
    stands at step 30: groups 10 and 30 are shown as the updater shows them
    at that step, group 50 is hidden, has not been shown yet and still has
    the 40% opacity it was drawn with. *)
Definition plain_layer (n : string) (v : bool) (f : option string) : item :=
  Item n false true false v 100 "" f [].
Definition group_layer (n : string) (v : bool) (o : Z) (hint : bool)
    (color : option string) : item :=
  Item n true true false v o "" None
    [plain_layer "drawing" true None; plain_layer "hint arrow" hint None;
     plain_layer "color bg" true color].
Definition text_layer (n t : string) : item :=
  Item n false true true true 100 t None [].
Definition sample : gimp :=
  Gimp [group_layer "#50# roof" false 40 true None;
        text_layer "step" "30";
        group_layer "#10# base" true 100 false (Some "#00FF00");
        plain_layer "background" true None;
        group_layer "#30# walls" true 100 true (Some "#FF0000")]
       "#00FF00".

(** The same document with group 50 fully opaque. *)
Definition sample_opaque : gimp :=
  Gimp (<[0%nat := group_layer "#50# roof" false 100 true None]>
          (layers sample))
       (foreground sample).

(** The same document without a step marker, and with one that holds no
    number. *)
Definition sample_unmarked : gimp :=
  Gimp (<[1%nat := text_layer "steps" "30"]> (layers sample))
       (foreground sample).
Definition sample_garbled : gimp :=
  Gimp (<[1%nat := text_layer "step" "thirty"]> (layers sample))
       (foreground sample).

(** *** Comparing documents *)

(** Visibility, opacity and colour of an item and of everything below it. *)
#[warnings="-register-all"]
Inductive look :=
  Look (v : bool) (o : Z) (f : option string) (members : list look).

Fixpoint appearance (it : item) : look :=
  Look (visible it) (opacity it) (fill it) (appearance <$> children it).

(** An item with visibility, opacity and colour blotted out, all the way
    down: what is left is the structure of the document. *)
Fixpoint skeleton (it : item) : item :=
  Item (name it) (is_group it) (is_layer it) (is_text_layer it)
       true 100 (text it) None (skeleton <$> children it).

Definition same_document (a b : gimp) : Prop :=
  skeleton <$> layers a = skeleton <$> layers b.

(** The updater's resulting visibility, opacity and colour state depends on
    nothing but the label map and the step: from two states of one document
    it reaches the same state. *)
Definition state_determined (groups : gmap Z nat) (step : Z) : Prop :=
  ∀ a b a' b',
    same_document a b →
    update_visibility groups step a = (Ok tt, a') →
    update_visibility groups step b = (Ok tt, b') →
    appearance <$> layers a' = appearance <$> layers b'.

(** Advance, then retreat, ends with the marker at "30" and in the
    visibility, opacity and colour state the updater produces for step 30. *)
Definition round_trip_restores (image : gimp) : Prop :=
  ∃ image2 image30 ID layer,
    (increase_step ;; decrease_step) image = (Ok tt, image2) ∧
    update_visibility (extract_relevant_groups image) 30 image
    = (Ok tt, image30) ∧
    marker_at image2 ID layer ∧ text layer = "30" ∧
    appearance <$> layers image2 = appearance <$> layers image30.

(** ** Vocabulary of the further properties *)

(** A member that [get_member_layer] accepts for [prefix]. *)
Definition member_matches (prefix : string) (member : item) : Prop :=
  is_layer member = true ∧ Py.startswith (name member) prefix = true.

(** The sample document with a marker that points past the last step. *)
Definition sample_past_end : gimp :=
  Gimp (<[1%nat := text_layer "step" " 77"]> (layers sample))
       (foreground sample).

(** What [extract_relevant_groups] reads of a layer. *)
Definition naming (it : item) : string * bool := (name it, is_group it).

(** The sample document with a plain layer, not a text layer, named
    "step". *)
Definition sample_plain_step : gimp :=
  Gimp (<[1%nat := plain_layer "step" false (Some "#123456")]>
          (layers sample))
       "#FFFFFF".

(** * Properties *)

Example adjacent_label_doc1 : adjacent_label [50; 10; 30] 42 false = Ok 30.
Proof. reflexivity. Qed.
Example adjacent_label_doc2 : adjacent_label [50; 10; 30] 77 true = Ok 50.
Proof. reflexivity. Qed.
Example int_ex : Py.int " -12 " = Some (-12) ∧ Py.int "+7" = Some 7
  ∧ Py.int "" = None ∧ Py.int "1 2" = None ∧ Py.int "-" = None
  ∧ Py.str (-120) = "-120" ∧ Py.str 0 = "0" ∧ Py.index "#12#ab" "#" 1 = Some 3%nat
  ∧ Py.slice "#12#ab" 1 3 = "12".
Proof. repeat split; reflexivity. Qed.


(** ** The adjacency resolver *)

Section adjacency.
Implicit Types (labels l : list Z) (x v : Z).

Lemma sorted_elem_of l y : y ∈ Py.sorted l ↔ y ∈ l.
Proof. unfold Py.sorted. by rewrite merge_sort_Permutation. Qed.

Lemma sorted_ascending l : StronglySorted Z.le (Py.sorted l).
Proof. apply StronglySorted_merge_sort; apply _. Qed.

Lemma sorted_nil_inv l : Py.sorted l = [] → l = [].
Proof.
  intros H. apply Permutation_nil_r. rewrite <- H.
  unfold Py.sorted. by rewrite merge_sort_Permutation.
Qed.

(** What an early-return loop found, and what it passed over. *)
Lemma first_such_Some test l v :
  first_such test l = Some v →
  ∃ l1 l2, l = l1 ++ v :: l2 ∧ test v = true
           ∧ ∀ y, y ∈ l1 → test y = false.
Proof.
  induction l as [|a l IH]; simpl; [done|].
  destruct (test a) eqn:Ha.
  - intros [= ->]. exists [], l. split_and!; [done..|]. by intros y ?%elem_of_nil.
  - intros (l1 & l2 & -> & Hv & Hl1)%IH.
    exists (a :: l1), l2. split_and!; [done..|].
    intros y [->|?]%elem_of_cons; auto.
Qed.

Lemma first_such_None test l :
  first_such test l = None → ∀ y, y ∈ l → test y = false.
Proof.
  induction l as [|a l IH]; simpl; [by intros _ y ?%elem_of_nil|].
  destruct (test a) eqn:Ha; [done|].
  intros H y [->|?]%elem_of_cons; auto.
Qed.

Lemma getitem_last {A} (l : list A) :
  Py.getitem l (-1) =
    match last l with Some a => Ok a | None => Raise IndexError end.
Proof.
  unfold Py.getitem. simpl.
  induction l as [|a l _] using rev_ind; [done|].
  rewrite last_snoc, length_app. simpl.
  destruct (_ <? 0) eqn:E; [apply Z.ltb_lt in E; lia|].
  replace (Z.to_nat _) with (length l) by lia.
  by rewrite list_lookup_middle.
Qed.

Lemma getitem_head {A} (l : list A) :
  Py.getitem l 0 =
    match head l with Some a => Ok a | None => Raise IndexError end.
Proof. by destruct l. Qed.

Lemma sorted_last_maximum l v :
  last (Py.sorted l) = Some v → maximum l v.
Proof.
  intros [l' Hl']%last_Some. pose proof (sorted_ascending l) as Hs.
  rewrite Hl' in Hs. split.
  - apply sorted_elem_of. rewrite Hl'. set_solver.
  - intros y Hy%sorted_elem_of. rewrite Hl' in Hy.
    apply elem_of_app in Hy as [Hy|Hy%list_elem_of_singleton]; [|lia].
    eapply (StronglySorted_app_1_elem_of _ _ _ _ _ Hs); set_solver.
Qed.

Lemma sorted_head_minimum l v :
  head (Py.sorted l) = Some v → minimum l v.
Proof.
  intros [l' Hl']%head_Some. pose proof (sorted_ascending l) as Hs.
  rewrite Hl' in Hs. apply StronglySorted_cons in Hs as [Hs _].
  rewrite Forall_forall in Hs. split.
  - apply sorted_elem_of. rewrite Hl'. set_solver.
  - intros y Hy%sorted_elem_of. rewrite Hl' in Hy.
    apply elem_of_cons in Hy as [->|Hy]; [lia|auto].
Qed.

(** Direction "next". *)
Lemma adjacent_label_next labels x :
  labels ≠ [] →
  ∃ v, adjacent_label labels x true = Ok v ∧
       (((∃ y, y ∈ labels ∧ x < y) ∧ least_above labels x v) ∨
        ((∀ y, y ∈ labels → y ≤ x) ∧ maximum labels v)).
Proof.
  intros Hne. unfold adjacent_label.
  destruct (first_such _ _) as [v|] eqn:Hf.
  - exists v. split; [done|]. left.
    apply first_such_Some in Hf as (l1 & l2 & Hl & Hv & Hl1).
    apply Z.gtb_lt in Hv.
    assert (v ∈ labels) by (apply sorted_elem_of; rewrite Hl; set_solver).
    split; [by eauto|]. split_and!; [done..|].
    intros y Hy%sorted_elem_of Hxy. rewrite Hl in Hy.
    pose proof (sorted_ascending labels) as Hs. rewrite Hl in Hs.
    apply elem_of_app in Hy as [Hy|Hy].
    + apply Hl1 in Hy. rewrite Z.gtb_ltb in Hy. apply Z.ltb_ge in Hy. lia.
    + apply StronglySorted_app_1_r, StronglySorted_cons in Hs as [Hs _].
      rewrite Forall_forall in Hs.
      apply elem_of_cons in Hy as [->|Hy]; [lia|auto].
  - rewrite getitem_last.
    destruct (last _) as [v|] eqn:Hlast.
    + exists v. split; [done|]. right. split; [|by apply sorted_last_maximum].
      intros y Hy%sorted_elem_of.
      eapply first_such_None in Hf; [|done].
      rewrite Z.gtb_ltb in Hf. by apply Z.ltb_ge in Hf.
    + apply last_None, sorted_nil_inv in Hlast. done.
Qed.

(** Direction "previous". *)
Lemma adjacent_label_previous labels x :
  labels ≠ [] →
  ∃ v, adjacent_label labels x false = Ok v ∧
       (((∃ y, y ∈ labels ∧ y < x) ∧ greatest_below labels x v) ∨
        ((∀ y, y ∈ labels → x ≤ y) ∧ minimum labels v)).
Proof.
  intros Hne. unfold adjacent_label.
  destruct (first_such _ _) as [v|] eqn:Hf.
  - exists v. split; [done|]. left.
    apply first_such_Some in Hf as (l1 & l2 & Hl & Hv & Hl1).
    apply Z.ltb_lt in Hv.
    assert (Py.sorted labels = reverse l2 ++ v :: reverse l1) as Hl'.
    { rewrite <- (reverse_involutive (Py.sorted labels)), Hl.
      rewrite reverse_app, reverse_cons, <- app_assoc. done. }
    assert (v ∈ labels) by (apply sorted_elem_of; rewrite Hl'; set_solver).
    split; [by eauto|]. split_and!; [done..|].
    intros y Hy%sorted_elem_of Hxy. rewrite Hl' in Hy.
    pose proof (sorted_ascending labels) as Hs. rewrite Hl' in Hs.
    apply elem_of_app in Hy as [Hy|Hy].
    + eapply (StronglySorted_app_1_elem_of _ _ _ _ _ Hs); set_solver.
    + apply elem_of_cons in Hy as [->|Hy]; [lia|].
      rewrite elem_of_reverse in Hy. apply Hl1 in Hy. apply Z.ltb_ge in Hy. lia.
  - rewrite getitem_head.
    destruct (head _) as [v|] eqn:Hhead.
    + exists v. split; [done|]. right. split; [|by apply sorted_head_minimum].
      intros y Hy%sorted_elem_of.
      eapply first_such_None in Hf; [|by apply elem_of_reverse].
      by apply Z.ltb_ge in Hf.
    + apply head_None, sorted_nil_inv in Hhead. done.
Qed.

Lemma adjacent_label_empty x direction :
  adjacent_label [] x direction = Raise IndexError.
Proof. by destruct direction. Qed.

Lemma adjacent_label_elem_of labels x direction v :
  adjacent_label labels x direction = Ok v → v ∈ labels.
Proof.
  destruct labels as [|a l]; [by rewrite adjacent_label_empty|].
  destruct direction.
  - destruct (adjacent_label_next (a :: l) x) as (w & -> & H); [done|].
    intros [= <-]. destruct H as [[_ [? _]]|[_ [? _]]]; done.
  - destruct (adjacent_label_previous (a :: l) x) as (w & -> & H); [done|].
    intros [= <-]. destruct H as [[_ [? _]]|[_ [? _]]]; done.
Qed.
End adjacency.

(** C2: on a non-empty collection of labels, "next" returns the smallest
    label strictly greater than the reference and the maximum label when no
    label is greater; "previous" returns the greatest label strictly smaller
    than the reference and the minimum label when none is smaller.  The two
    documented calls give 30 and 50. *)
Theorem adjacent_label_saturates (labels : list Z) (reference : Z) :
  labels ≠ [] →
  (∃ v, adjacent_label labels reference true = Ok v ∧
        (((∃ y, y ∈ labels ∧ reference < y) ∧ least_above labels reference v) ∨
         ((∀ y, y ∈ labels → y ≤ reference) ∧ maximum labels v))) ∧
  (∃ v, adjacent_label labels reference false = Ok v ∧
        (((∃ y, y ∈ labels ∧ y < reference)
          ∧ greatest_below labels reference v) ∨
         ((∀ y, y ∈ labels → reference ≤ y) ∧ minimum labels v))) ∧
  adjacent_label [50; 10; 30] 42 false = Ok 30 ∧
  adjacent_label [50; 10; 30] 77 true = Ok 50.
Proof.
  intros Hne. split_and!;
    [by apply adjacent_label_next|by apply adjacent_label_previous|done..].
Qed.

Lemma adjacent_label_saturates_witness :
  [50; 10; 30] ≠ [] ∧
  ∃ v, adjacent_label [50; 10; 30] 42 true = Ok v.
Proof.
  split; [done|].
  destruct (adjacent_label_saturates [50; 10; 30] 42) as [(v & Hv & _) _];
    [done|eauto].
Defined.

Section extremes.
Implicit Types (labels : list Z).

Lemma maximum_exists labels : labels ≠ [] → ∃ hi, maximum labels hi.
Proof.
  intros Hne. destruct (last (Py.sorted labels)) as [hi|] eqn:Hlast.
  - exists hi. by apply sorted_last_maximum.
  - by apply last_None, sorted_nil_inv in Hlast.
Qed.

Lemma minimum_exists labels : labels ≠ [] → ∃ lo, minimum labels lo.
Proof.
  intros Hne. destruct (head (Py.sorted labels)) as [lo|] eqn:Hhead.
  - exists lo. by apply sorted_head_minimum.
  - by apply head_None, sorted_nil_inv in Hhead.
Qed.

Lemma maximum_unique labels a b : maximum labels a → maximum labels b → a = b.
Proof. intros [Ha Ha'] [Hb Hb']. apply Ha' in Hb. apply Hb' in Ha. lia. Qed.

Lemma minimum_unique labels a b : minimum labels a → minimum labels b → a = b.
Proof. intros [Ha Ha'] [Hb Hb']. apply Ha' in Hb. apply Hb' in Ha. lia. Qed.

Lemma adjacent_label_next_top labels x hi :
  maximum labels hi → hi ≤ x → adjacent_label labels x true = Ok hi.
Proof.
  intros Hhi Hx.
  destruct (adjacent_label_next labels x) as (v & -> & H).
  { intros ->. destruct Hhi as [?%elem_of_nil _]. done. }
  destruct H as [[(y & Hy & Hxy) _]|[_ Hv]].
  - apply Hhi in Hy. lia.
  - f_equal. by eapply maximum_unique.
Qed.

Lemma adjacent_label_next_inner labels x hi :
  maximum labels hi → x < hi →
  ∃ v, adjacent_label labels x true = Ok v ∧ least_above labels x v.
Proof.
  intros Hhi Hx.
  destruct (adjacent_label_next labels x) as (v & Hv & H).
  { intros ->. destruct Hhi as [?%elem_of_nil _]. done. }
  exists v. split; [done|]. destruct H as [[_ ?]|[Hall _]]; [done|].
  destruct Hhi as [Hhi _]. apply Hall in Hhi. lia.
Qed.

Lemma adjacent_label_previous_bottom labels x lo :
  minimum labels lo → x ≤ lo → adjacent_label labels x false = Ok lo.
Proof.
  intros Hlo Hx.
  destruct (adjacent_label_previous labels x) as (v & -> & H).
  { intros ->. destruct Hlo as [?%elem_of_nil _]. done. }
  destruct H as [[(y & Hy & Hxy) _]|[_ Hv]].
  - apply Hlo in Hy. lia.
  - f_equal. by eapply minimum_unique.
Qed.

Lemma adjacent_label_previous_inner labels x lo :
  minimum labels lo → lo < x →
  ∃ v, adjacent_label labels x false = Ok v ∧ greatest_below labels x v.
Proof.
  intros Hlo Hx.
  destruct (adjacent_label_previous labels x) as (v & Hv & H).
  { intros ->. destruct Hlo as [?%elem_of_nil _]. done. }
  exists v. split; [done|]. destruct H as [[_ ?]|[Hall _]]; [done|].
  destruct Hlo as [Hlo _]. apply Hall in Hlo. lia.
Qed.
End extremes.

(** C3, as stated, fails: past the top of {10, 30, 50} "next" stays on 50
    instead of returning the minimum 10, and below the bottom "previous"
    stays on 10 instead of returning the maximum 50. *)
Lemma adjacent_does_not_wrap :
  ¬ wraps_around {[10; 30; 50]} 77 ∧ ¬ wraps_around {[10; 30; 50]} 5.
Proof.
  assert (∀ y, y ∈ elements ({[10; 30; 50]} : gset Z)
               ↔ y = 10 ∨ y = 30 ∨ y = 50) as Hin.
  { intros y. rewrite elem_of_elements, !elem_of_union, !elem_of_singleton.
    tauto. }
  assert (maximum (elements ({[10; 30; 50]} : gset Z)) 50) as Hhi.
  { split; [|intros y]; rewrite Hin; lia. }
  assert (minimum (elements ({[10; 30; 50]} : gset Z)) 10) as Hlo.
  { split; [|intros y]; rewrite Hin; lia. }
  split.
  - intros [Hnext _]. specialize (Hnext 50 10 Hhi Hlo).
    assert (adjacent {[10; 30; 50]} 77 true = Ok 50) as E by by vm_compute.
    rewrite E in Hnext. by discriminate Hnext.
  - intros [_ Hprev]. specialize (Hprev 50 10 Hhi Hlo).
    assert (adjacent {[10; 30; 50]} 5 false = Ok 10) as E by by vm_compute.
    rewrite E in Hprev. by discriminate Hprev.
Qed.

(** C3, amended: for a non-empty finite set S of integers and a reference x,
    "next" returns the maximum of S if x >= max(S) and otherwise the
    smallest element strictly greater than x; "previous" returns the minimum
    of S if x <= min(S) and otherwise the largest element strictly smaller
    than x. *)
Theorem adjacent_saturates_on_sets (S : gset Z) (x : Z) :
  S ≠ ∅ →
  ∃ hi lo,
    maximum (elements S) hi ∧ minimum (elements S) lo ∧
    (hi ≤ x → adjacent S x true = Ok hi) ∧
    (x < hi → ∃ v, adjacent S x true = Ok v ∧ least_above (elements S) x v) ∧
    (x ≤ lo → adjacent S x false = Ok lo) ∧
    (lo < x →
       ∃ v, adjacent S x false = Ok v ∧ greatest_below (elements S) x v).
Proof.
  intros Hne.
  assert (elements S ≠ []) as Hne'.
  { intros H%elements_empty_inv. by apply leibniz_equiv in H. }
  destruct (maximum_exists _ Hne') as [hi Hhi].
  destruct (minimum_exists _ Hne') as [lo Hlo].
  exists hi, lo. unfold adjacent. split_and!; [done..| | | |].
  - by apply adjacent_label_next_top.
  - by apply adjacent_label_next_inner.
  - by apply adjacent_label_previous_bottom.
  - by apply adjacent_label_previous_inner.
Qed.

Lemma adjacent_saturates_on_sets_witness :
  ({[10; 30; 50]} : gset Z) ≠ ∅ ∧
  ∃ hi lo, maximum (elements ({[10; 30; 50]} : gset Z)) hi
           ∧ minimum (elements ({[10; 30; 50]} : gset Z)) lo.
Proof.
  assert (({[10; 30; 50]} : gset Z) ≠ ∅) as Hne.
  { intros H. assert (10 ∈ (∅ : gset Z)) as Hin.
    { rewrite <- H, !elem_of_union, !elem_of_singleton. tauto. }
    by apply not_elem_of_empty in Hin. }
  split; [exact Hne|].
  destruct (adjacent_saturates_on_sets {[10; 30; 50]} 42 Hne)
    as (hi & lo & Hhi & Hlo & _).
  eauto.
Defined.

(** ** The two predecessors of the current step *)

Section predecessors.
Implicit Types (labels : list Z) (step : Z).

(** [from_top] succeeds on a non-empty label list, and what it returns is
    strictly ordered below the step: a third-from-top only exists under a
    second-from-top. *)
Lemma from_top_ordered labels step :
  labels ≠ [] →
  ∃ second third,
    from_top labels step = Ok (second, third) ∧
    (∀ s, second = Some s → s ∈ labels ∧ s ≠ step) ∧
    (∀ t, third = Some t →
       ∃ s, second = Some s ∧ t ∈ labels ∧ t < s ∧ s < step).
Proof.
  intros Hne. unfold from_top.
  destruct (adjacent_label_previous labels step Hne) as (s0 & -> & Hs0).
  destruct (adjacent_label_previous labels s0 Hne) as (t0 & -> & Ht0).
  eexists _, _. split; [done|].
  assert (s0 ∈ labels) as Hs0in
    by (destruct Hs0 as [[_ [? _]]|[_ [? _]]]; done).
  split.
  - intros s. destruct (s0 =? step) eqn:E; [done|].
    intros [= <-]. apply Z.eqb_neq in E. done.
  - intros t. destruct (t0 =? s0) eqn:E; [done|].
    intros [= <-]. apply Z.eqb_neq in E.
    destruct Ht0 as [[_ (Ht0in & Hlt & _)]|[Hall [Ht0in Hmin]]].
    + destruct Hs0 as [[_ (_ & Hlt' & _)]|[Hall' [_ Hmin']]].
      * exists s0. assert ((s0 =? step) = false) as -> by (apply Z.eqb_neq; lia).
        done.
      * apply Hmin' in Ht0in. lia.
    + apply Hall in Ht0in. apply Hmin in Hs0in. lia.
Qed.

Lemma from_top_empty step : from_top [] step = Raise IndexError.
Proof. done. Qed.

(** At most one of the three comparisons of the colour index holds. *)
Lemma recency_exclusive labels step second third label :
  from_top labels step = Ok (second, third) →
  ((label =? step) && Py.eq_opt label second = false) ∧
  ((label =? step) && Py.eq_opt label third = false) ∧
  (Py.eq_opt label second && Py.eq_opt label third = false).
Proof.
  intros Hft. destruct labels as [|a l]; [done|].
  destruct (from_top_ordered (a :: l) step) as (s' & t' & E & Hs & Ht);
    [done|].
  rewrite Hft in E. injection E as <- <-.
  destruct second as [s|], third as [t|]; simpl;
    rewrite ?andb_false_r; split_and!; try done.
  - destruct (Hs s eq_refl) as [_ ?]. apply andb_false_iff.
    destruct (Z.eqb_spec label step), (Z.eqb_spec label s); auto. lia.
  - destruct (Ht t eq_refl) as (? & [= <-] & _ & ? & ?). apply andb_false_iff.
    destruct (Z.eqb_spec label step), (Z.eqb_spec label t); auto. lia.
  - destruct (Ht t eq_refl) as (? & [= <-] & _ & ? & ?). apply andb_false_iff.
    destruct (Z.eqb_spec label s), (Z.eqb_spec label t); auto. lia.
  - destruct (Hs s eq_refl) as [_ ?]. apply andb_false_iff.
    destruct (Z.eqb_spec label step), (Z.eqb_spec label s); auto. lia.
  - destruct (Ht t eq_refl) as (? & [=] & _).
Qed.

Lemma color_index_range step second third label :
  Py.max4 0 (1 * Z.b2z (label =? step))
    (2 * Z.b2z (Py.eq_opt label second))
    (3 * Z.b2z (Py.eq_opt label third))
  = color_index step second third label ∧
  0 ≤ color_index step second third label ≤ 3.
Proof.
  unfold color_index, Py.max4. simpl length.
  destruct (label =? step), (Py.eq_opt label second),
    (Py.eq_opt label third); simpl; lia.
Qed.

Lemma color_index_rank labels step second third label :
  from_top labels step = Ok (second, third) →
  color_index step second third label
  = Z.of_nat (recency_rank step second third label).
Proof.
  intros Hft.
  destruct (recency_exclusive _ _ _ _ label Hft) as (H1 & H2 & H3).
  unfold color_index, recency_rank, Py.max4. simpl length.
  destruct (label =? step), (Py.eq_opt label second),
    (Py.eq_opt label third); simpl in *; done.
Qed.

Lemma getitem_palette (r : nat) :
  (r ≤ 3)%nat → Py.getitem FADING_COLORS (Z.of_nat r) = Ok (palette r).
Proof.
  intros Hr. do 4 (destruct r as [|r]; [done|]). lia.
Qed.

Lemma recency_rank_le step second third label :
  (recency_rank step second third label ≤ 3)%nat.
Proof. unfold recency_rank. repeat case_match; lia. Qed.
End predecessors.

(** C9: whatever the label map and the current step, the index into the
    4-entry palette lies in 0..3 and equals the recency rank; the lookup
    succeeds, and the [min] that guards the index leaves it unchanged. *)
Theorem color_index_in_bounds (groups : gmap Z nat) (step label : Z)
    (second third : option Z) :
  from_top (keys groups) step = Ok (second, third) →
  let i := color_index step second third label in
  0 ≤ i ≤ 3 ∧
  i = Z.of_nat (recency_rank step second third label) ∧
  Py.max4 0 (1 * Z.b2z (label =? step))
    (2 * Z.b2z (Py.eq_opt label second))
    (3 * Z.b2z (Py.eq_opt label third)) = i ∧
  i < Z.of_nat (length FADING_COLORS) ∧
  Py.getitem FADING_COLORS i
  = Ok (palette (recency_rank step second third label)).
Proof.
  intros Hft i.
  destruct (color_index_range step second third label) as [Hmax Hrange].
  pose proof (color_index_rank _ _ _ _ label Hft) as Hrank.
  split_and!; [lia..|done|done|simpl; lia|].
  unfold i. rewrite Hrank. apply getitem_palette, recency_rank_le.
Qed.

Lemma color_index_in_bounds_witness :
  from_top (keys {[10 := 0%nat; 30 := 1%nat; 50 := 2%nat]}) 50
    = Ok (Some 30, Some 10) ∧
  color_index 50 (Some 30) (Some 10) 10 = 3.
Proof.
  assert (from_top (keys {[10 := 0%nat; 30 := 1%nat; 50 := 2%nat]}) 50
          = Ok (Some 30, Some 10)) as H by by vm_compute.
  split; [exact H|].
  destruct (color_index_in_bounds _ 50 10 _ _ H) as (_ & -> & _). done.
Defined.

(** ** The loop body against the rule *)

Section rule.
Context (step : Z) (second third : option Z).

Lemma alter_lookup {A} (f : A → A) (l : list A) i x :
  l !! i = Some x → alter f i l = <[i := f x]> l.
Proof.
  intros Hx. apply list_eq. intros j. destruct (decide (i = j)) as [<-|].
  - rewrite list_lookup_alter_eq, Hx, list_lookup_insert_eq;
      [done|by eapply lookup_lt_Some].
  - by rewrite list_lookup_alter_ne, list_lookup_insert_ne.
Qed.

(** Changing attributes of members leaves the member search alone. *)
Lemma first_member_alter prefix (f : item → item) j members k :
  (∀ it, name (f it) = name it ∧ is_layer (f it) = is_layer it) →
  first_member prefix (alter f j members) k = first_member prefix members k.
Proof.
  intros Hf. revert j k.
  induction members as [|m members IH]; intros j k; [done|].
  destruct j as [|j].
  - change (alter f 0%nat (m :: members)) with (f m :: members). simpl.
    destruct (Hf m) as [-> ->]. done.
  - change (alter f (S j) (m :: members)) with (m :: alter f j members).
    simpl. by rewrite IH.
Qed.

Lemma update_group_rule labels label ID image g :
  from_top labels step = Ok (second, third) →
  layers image !! ID = Some g →
  update_group step second third (label, ID) image
  = (Ok tt, apply_rule step second third image (label, ID)).
Proof.
  intros Hft Hg.
  assert (ID < length (layers image))%nat as Hlt by by eapply lookup_lt_Some.
  unfold update_group, apply_rule, bind, gets, Item_from_id.
  rewrite Hg. unfold group_rule. destruct (label >? step) eqn:E; simpl.
  - unfold set_visible, modify, update. simpl. done.
  - unfold get_member_layer, lift. simpl.
    rewrite !list_lookup_alter_eq, Hg. simpl.
    unfold on_member at 2. simpl.
    rewrite list_alter_alter_eq.
    pose proof (color_index_rank _ _ _ _ label Hft) as Hrank.
    pose proof (recency_rank_le step second third label) as Hle.
    set (r := recency_rank step second third label) in *.
    assert (has_member "color" g
            = bool_decide (is_Some (first_member "color" (children g) 0)))
      as -> by done.
    destruct (first_member "hint" (children g) 0) as [jh|] eqn:Hh; simpl.
    + unfold set_visible, modify, update; simpl.
      rewrite list_alter_alter_eq, list_lookup_alter_eq, Hg. simpl.
      rewrite first_member_alter by done.
      destruct (first_member "color" (children g) 0) as [jc|] eqn:Hc; simpl.
      * rewrite Hrank, getitem_palette by done.
        unfold gimp_drawable_fill_foreground, modify, update; simpl.
        rewrite list_alter_alter_eq. do 2 f_equal.
        apply list_alter_ext; [|done]. intros x. rewrite Hg. intros [= <-].
        simpl. rewrite Hh. unfold on_member. simpl.
        rewrite first_member_alter, Hc by done. done.
      * unfold ret. do 2 f_equal.
        apply list_alter_ext; [|done]. intros x. rewrite Hg. intros [= <-].
        simpl. rewrite Hh. unfold on_member. simpl.
        rewrite first_member_alter, Hc by done. done.
    + unfold ret. simpl. rewrite list_lookup_alter_eq, Hg. simpl.
      destruct (first_member "color" (children g) 0) as [jc|] eqn:Hc; simpl.
      * rewrite Hrank, getitem_palette by done.
        unfold gimp_drawable_fill_foreground, modify, update; simpl.
        rewrite list_alter_alter_eq. do 2 f_equal.
        apply list_alter_ext; [|done]. intros x. rewrite Hg. intros [= <-].
        simpl. rewrite Hh. unfold on_member. simpl. rewrite Hc. done.
      * unfold ret. do 2 f_equal.
        apply list_alter_ext; [|done]. intros x. rewrite Hg. intros [= <-].
        simpl. rewrite Hh. unfold on_member. simpl. rewrite Hc. done.
Qed.

(** A dangling [ID] makes the body stop at once. *)
Lemma update_group_dangling label ID image :
  layers image !! ID = None →
  update_group step second third (label, ID) image
  = (Raise AttributeError, image).
Proof.
  intros Hg. unfold update_group, bind, gets, Item_from_id. by rewrite Hg.
Qed.

Lemma apply_rule_length image entry :
  length (layers (apply_rule step second third image entry))
  = length (layers image).
Proof. destruct entry. simpl. apply length_alter. Qed.

Lemma foldl_apply_rule_length image entries :
  length (layers (foldl (apply_rule step second third) image entries))
  = length (layers image).
Proof.
  revert image. induction entries as [|e entries IH]; intros image; [done|].
  simpl. by rewrite IH, apply_rule_length.
Qed.

(** The loop over the label map, when every group is live. *)
Lemma for_each_update_group labels entries image :
  from_top labels step = Ok (second, third) →
  (∀ label ID, (label, ID) ∈ entries → is_Some (layers image !! ID)) →
  for_each entries (update_group step second third) image
  = (Ok tt, foldl (apply_rule step second third) image entries).
Proof.
  intros Hft. revert image.
  induction entries as [|[label ID] entries IH]; intros image Hlive; [done|].
  destruct (Hlive label ID) as [g Hg]; [by left|].
  cbn [for_each foldl]. unfold bind at 1.
  rewrite (update_group_rule _ _ _ _ _ Hft Hg).
  apply IH. intros label' ID' Hin.
  destruct (Hlive label' ID') as [g' Hg']; [by right|].
  apply lookup_lt_is_Some. rewrite apply_rule_length.
  by eapply lookup_lt_Some.
Qed.
End rule.

Lemma keys_nonempty (groups : gmap Z nat) : groups ≠ ∅ → keys groups ≠ [].
Proof.
  intros Hne Hk. apply Hne, map_to_list_empty_iff.
  unfold keys in Hk. by apply fmap_nil_inv in Hk.
Qed.

Lemma live_entries (groups : gmap Z nat) image :
  live groups image →
  ∀ label ID, (label, ID) ∈ map_to_list groups → is_Some (layers image !! ID).
Proof. intros Hlive label ID Hin%elem_of_map_to_list. by eapply Hlive. Qed.

Lemma update_visibility_fold (groups : gmap Z nat) step image :
  groups ≠ ∅ → live groups image →
  ∃ second third,
    from_top (keys groups) step = Ok (second, third) ∧
    update_visibility groups step image
    = (Ok tt, foldl (apply_rule step second third) image (map_to_list groups)).
Proof.
  intros Hne Hlive.
  destruct (from_top_ordered (keys groups) step (keys_nonempty _ Hne))
    as (second & third & Hft & _).
  exists second, third. split; [done|].
  unfold update_visibility, bind, lift. rewrite Hft. simpl.
  eapply for_each_update_group; [done|]. by apply live_entries.
Qed.

(** Without a single step group the updater stops before it touches
    anything. *)
Lemma update_visibility_empty step image :
  update_visibility ∅ step image = (Raise IndexError, image).
Proof. done. Qed.

(** ** The label parser *)

Section parser.
Lemma get_drop n s k : String.get k (Py.drop n s) = String.get (n + k) s.
Proof.
  revert s. induction n as [|n IH]; intros s; [done|].
  destruct s as [|a s]; simpl; [by destruct k|]. apply IH.
Qed.

Lemma find_char_Some c s pos e :
  Py.find_char c s pos = Some e ↔
  (pos ≤ e)%nat ∧ String.get (e - pos) s = Some c
  ∧ ∀ k, (k < e - pos)%nat → String.get k s ≠ Some c.
Proof.
  revert pos. induction s as [|a s IH]; intros pos; simpl.
  - split; [done|]. intros (_ & H & _). by destruct (e - pos)%nat.
  - destruct (Ascii.eqb_spec a c) as [->|Hne].
    + split.
      * intros [= <-]. rewrite Nat.sub_diag. split_and!; [lia|done|lia].
      * intros (Hle & Hget & Hfirst). f_equal.
        destruct (e - pos)%nat as [|d] eqn:E; [lia|].
        destruct (Hfirst 0%nat); [lia|done].
    + rewrite IH. split.
      * intros (Hle & Hget & Hfirst).
        replace (e - pos)%nat with (S (e - S pos)) by lia.
        split_and!; [lia|done|]. intros [|k] Hk; simpl; [congruence|].
        apply Hfirst. lia.
      * intros (Hle & Hget & Hfirst).
        destruct (e - pos)%nat as [|d] eqn:E; simpl in Hget; [congruence|].
        replace (e - S pos)%nat with d by lia.
        split_and!; [lia|done|]. intros k Hk. apply (Hfirst (S k)). lia.
Qed.

Lemma index_Some s c start e :
  Py.index s c start = Some e ↔
  (start ≤ e)%nat ∧ String.get e s = Some c
  ∧ ∀ k, (start ≤ k < e)%nat → String.get k s ≠ Some c.
Proof.
  unfold Py.index. rewrite find_char_Some. split.
  - intros (Hle & Hget & Hfirst). rewrite get_drop in Hget.
    replace (start + (e - start))%nat with e in Hget by lia.
    split_and!; [done..|]. intros k Hk.
    specialize (Hfirst (k - start)%nat). rewrite get_drop in Hfirst.
    replace (start + (k - start))%nat with k in Hfirst by lia.
    apply Hfirst. lia.
  - intros (Hle & Hget & Hfirst). rewrite get_drop.
    replace (start + (e - start))%nat with e by lia.
    split_and!; [done..|]. intros k Hk. rewrite get_drop.
    apply Hfirst. lia.
Qed.

Lemma label_of_step_group layer label :
  label_of layer = Some label ↔ step_group layer label.
Proof.
  unfold label_of, step_group. split.
  - destruct (is_group layer); [|done].
    destruct (Py.startswith _ _); [|done]. simpl.
    destruct (Py.index _ _ _) as [e|] eqn:He; [|done].
    apply index_Some in He as (? & ? & ?). eauto 10.
  - intros (-> & -> & e & Hle & Hget & Hfirst & Hint). simpl.
    assert (Py.index (name layer) "#" 1 = Some e) as ->; [|done].
    by apply index_Some.
Qed.

Lemma extract_layer_label_of groups ID layer :
  extract_layer groups (ID, layer) =
    match label_of layer with
    | Some label => <[label := ID]> groups
    | None => groups
    end.
Proof.
  unfold extract_layer, label_of.
  destruct (is_group layer); [|done].
  destruct (Py.startswith _ _); [|done]. simpl.
  by destruct (Py.index _ _ _).
Qed.

Lemma enumerate_snoc {A} (l : list A) x :
  enumerate (l ++ [x]) = enumerate l ++ [(length l, x)].
Proof.
  unfold enumerate. rewrite imap_app. simpl. by rewrite Nat.add_0_r.
Qed.

Lemma extract_snoc ls fg layer :
  extract_relevant_groups (Gimp (ls ++ [layer]) fg)
  = extract_layer (extract_relevant_groups (Gimp ls fg)) (length ls, layer).
Proof.
  unfold extract_relevant_groups. simpl.
  by rewrite enumerate_snoc, foldl_snoc.
Qed.

(** An entry of the label map is the [ID] of a layer carrying that label. *)
Lemma extract_lookup image label ID :
  extract_relevant_groups image !! label = Some ID →
  ∃ layer, layers image !! ID = Some layer ∧ label_of layer = Some label.
Proof.
  destruct image as [ls fg]. simpl. revert label ID.
  induction ls as [|layer ls IH] using rev_ind; intros label ID.
  - done.
  - rewrite extract_snoc, extract_layer_label_of.
    destruct (label_of layer) as [label'|] eqn:Hl.
    + rewrite lookup_insert. case_decide as Heq.
      * intros [= <-]. subst label'. exists layer.
        by rewrite list_lookup_middle.
      * intros (layer' & H & ?)%IH. exists layer'.
        split; [|done]. by apply lookup_app_l_Some.
    + intros (layer' & H & ?)%IH. exists layer'.
      split; [|done]. by apply lookup_app_l_Some.
Qed.

(** Every label carried by some layer is a key of the label map. *)
Lemma extract_is_Some image ID layer label :
  layers image !! ID = Some layer → label_of layer = Some label →
  is_Some (extract_relevant_groups image !! label).
Proof.
  destruct image as [ls fg]. simpl. revert ID.
  induction ls as [|layer' ls IH] using rev_ind; intros ID; [done|].
  rewrite extract_snoc, extract_layer_label_of.
  intros Hl Hlabel. destruct (decide (ID = length ls)) as [->|Hne].
  - rewrite list_lookup_middle in Hl by done. injection Hl as ->.
    rewrite Hlabel, lookup_insert_eq. by eexists.
  - assert (ls !! ID = Some layer) as Hl'.
    { apply lookup_lt_Some in Hl as Hlt. rewrite length_app in Hlt.
      simpl in Hlt. rewrite lookup_app_l in Hl by lia. done. }
    destruct (label_of layer') as [label'|]; [|by eauto].
    rewrite lookup_insert. case_decide; [by eexists|by eauto].
Qed.

Lemma extract_live image : live (extract_relevant_groups image) image.
Proof. intros label ID (layer & -> & _)%extract_lookup. by eexists. Qed.

(** Distinct labels stand for distinct groups. *)
Lemma extract_inj image l1 l2 ID :
  extract_relevant_groups image !! l1 = Some ID →
  extract_relevant_groups image !! l2 = Some ID → l1 = l2.
Proof.
  intros (g1 & H1 & E1)%extract_lookup (g2 & H2 & E2)%extract_lookup.
  congruence.
Qed.
End parser.

(** C8: a top-level node is in the mapping returned by
    [extract_relevant_groups] only if it is a group whose name starts with
    "#", has a second "#" after position 0 and whose text between the two
    parses as an integer; a node failing this leaves the mapping as it was
    (the function is total and only reads the image). *)
Theorem extract_only_step_groups :
  (∀ image label ID,
     extract_relevant_groups image !! label = Some ID →
     ∃ layer, layers image !! ID = Some layer ∧ step_group layer label) ∧
  (∀ relevant_groups ID layer,
     (∀ label, ¬ step_group layer label) →
     extract_layer relevant_groups (ID, layer) = relevant_groups).
Proof.
  split.
  - intros image label ID (layer & Hl & Hs)%extract_lookup.
    exists layer. split; [done|]. by apply label_of_step_group.
  - intros groups ID layer Hno. rewrite extract_layer_label_of.
    destruct (label_of layer) as [label|] eqn:E; [|done].
    apply label_of_step_group in E. by destruct (Hno label).
Qed.

(** ** What the rule leaves behind, group by group *)

Section pointwise.
Context (step : Z) (second third : option Z).
Local Abbreviation rule := (group_rule step second third).
Local Abbreviation apply := (apply_rule step second third).

Lemma apply_rule_lookup_eq image label ID :
  layers (apply image (label, ID)) !! ID
  = rule label <$> layers image !! ID.
Proof. simpl. apply list_lookup_alter_eq. Qed.

Lemma apply_rule_lookup_ne image label ID ID' :
  ID ≠ ID' → layers (apply image (label, ID)) !! ID' = layers image !! ID'.
Proof. intros. simpl. by apply list_lookup_alter_ne. Qed.

Lemma foldl_apply_rule_notin entries image ID :
  ID ∉ entries.*2 →
  layers (foldl apply image entries) !! ID = layers image !! ID.
Proof.
  revert image. induction entries as [|[label ID'] entries IH];
    intros image Hnotin; [done|].
  rewrite fmap_cons in Hnotin. cbn [foldl snd] in *.
  apply not_elem_of_cons in Hnotin as [Hne Hnotin].
  rewrite IH by done. by apply apply_rule_lookup_ne.
Qed.

Lemma foldl_apply_rule_in entries image label ID :
  NoDup entries.*2 → (label, ID) ∈ entries →
  layers (foldl apply image entries) !! ID
  = rule label <$> layers image !! ID.
Proof.
  revert image. induction entries as [|[label' ID'] entries IH];
    intros image Hnodup Hin; [by apply elem_of_nil in Hin|].
  rewrite fmap_cons in Hnodup. cbn [foldl snd] in *.
  apply NoDup_cons in Hnodup as [Hnotin Hnodup].
  apply elem_of_cons in Hin as [[= <- <-]|Hin].
  - rewrite foldl_apply_rule_notin by done. apply apply_rule_lookup_eq.
  - rewrite IH by done. rewrite apply_rule_lookup_ne; [done|].
    intros ->. apply Hnotin.
    by apply (list_elem_of_fmap_2 snd _ (label, ID)).
Qed.

Lemma distinct_groups_NoDup (groups : gmap Z nat) :
  distinct_groups groups → NoDup (map_to_list groups).*2.
Proof.
  intros Hinj. apply NoDup_fmap_2_strong; [|apply NoDup_map_to_list].
  intros [l1 i1] [l2 i2] H1%elem_of_map_to_list H2%elem_of_map_to_list.
  simpl. intros <-. f_equal. by eapply Hinj.
Qed.

Lemma first_member_Some prefix members k j :
  first_member prefix members k = Some j →
  (k ≤ j)%nat ∧ ∃ m, members !! (j - k)%nat = Some m
                     ∧ is_layer m = true
                     ∧ Py.startswith (name m) prefix = true.
Proof.
  revert k. induction members as [|m members IH]; intros k; [done|].
  simpl. destruct (is_layer m && _) eqn:E.
  - intros [= <-]. rewrite Nat.sub_diag. apply andb_true_iff in E as [??].
    split; [lia|]. by exists m.
  - intros (Hle & m' & Hm' & ?)%IH. split; [lia|]. exists m'.
    replace (j - k)%nat with (S (j - S k)) by lia. done.
Qed.

(** The rule on a group that stays hidden. *)
Lemma group_rule_hidden label g :
  step < label → rule label g = with_visible false g.
Proof.
  intros Hlt. unfold group_rule.
  by assert ((label >? step) = true) as -> by (apply Z.gtb_lt; lia).
Qed.

(** The rule on a group that is shown. *)
Lemma group_rule_shown label g :
  label ≤ step →
  visible (rule label g) = true ∧
  opacity (rule label g) = (if label =? step then TOPMOST_OPACITY else 100) ∧
  hint_visible (rule label g)
    = (λ _, label =? step) <$> hint_visible g ∧
  color_fill (rule label g)
    = (λ _, Some (palette (recency_rank step second third label)))
        <$> color_fill g.
Proof.
  intros Hle. unfold group_rule.
  assert ((label >? step) = false) as ->.
  { rewrite Z.gtb_ltb. apply Z.ltb_ge. lia. }
  unfold hint_visible, color_fill, member_of, on_member. simpl.
  destruct (first_member "hint" (children g) 0) as [jh|] eqn:Hh; simpl;
    rewrite ?first_member_alter by done;
    (destruct (first_member "color" (children g) 0) as [jc|] eqn:Hc; simpl);
    rewrite ?first_member_alter, ?Hh, ?Hc by done;
    (split_and!; try done);
    rewrite !list_lookup_alter; repeat case_decide; subst;
    by destruct (children g !! _).
Qed.

(** The rule never touches the name, the kind or the text of a group,
    nor the names and kinds of its members. *)
Lemma group_rule_frame label g :
  name (rule label g) = name g ∧ is_group (rule label g) = is_group g ∧
  is_layer (rule label g) = is_layer g ∧
  is_text_layer (rule label g) = is_text_layer g ∧
  text (rule label g) = text g ∧
  ∀ prefix, first_member prefix (children (rule label g)) 0
            = first_member prefix (children g) 0.
Proof.
  unfold group_rule, on_member. destruct (label >? step); [done|]. simpl.
  destruct (first_member "hint" (children g) 0) as [jh|] eqn:Hh; simpl.
  - rewrite first_member_alter by done.
    destruct (first_member "color" (children g) 0) as [jc|] eqn:Hc; simpl.
    + split_and!; [done..|]. intros. by rewrite !first_member_alter.
    + split_and!; [done..|]. intros. by rewrite !first_member_alter.
  - destruct (first_member "color" (children g) 0) as [jc|] eqn:Hc; simpl.
    + split_and!; [done..|]. intros. by rewrite !first_member_alter.
    + done.
Qed.
End pointwise.

(** The updater on a label map with one live group per label: every group
    of the map went through the rule once, everything else is as before. *)
Lemma update_visibility_pointwise (groups : gmap Z nat) step image :
  groups ≠ ∅ → live groups image → distinct_groups groups →
  ∃ second third image',
    from_top (keys groups) step = Ok (second, third) ∧
    update_visibility groups step image = (Ok tt, image') ∧
    length (layers image') = length (layers image) ∧
    (∀ label ID, groups !! label = Some ID →
       layers image' !! ID
       = group_rule step second third label <$> layers image !! ID) ∧
    (∀ ID, (∀ label, groups !! label ≠ Some ID) →
       layers image' !! ID = layers image !! ID).
Proof.
  intros Hne Hlive Hinj.
  destruct (update_visibility_fold groups step image Hne Hlive)
    as (second & third & Hft & Hupd).
  exists second, third. eexists. split_and!; [done..| | |].
  - apply foldl_apply_rule_length.
  - intros label ID Hl. apply foldl_apply_rule_in.
    + by apply distinct_groups_NoDup.
    + by apply elem_of_map_to_list.
  - intros ID Hno. apply foldl_apply_rule_notin.
    intros ([label ID'] & -> & Hin%elem_of_map_to_list)%list_elem_of_fmap.
    by apply (Hno label).
Qed.

(** ** Reading off the resolver's answer *)

Section reading.
Implicit Types (labels : list Z).

Lemma adjacent_label_previous_is labels x v :
  greatest_below labels x v → adjacent_label labels x false = Ok v.
Proof.
  intros (Hin & Hlt & Hmax).
  destruct (adjacent_label_previous labels x) as (w & -> & H).
  { intros ->. by apply elem_of_nil in Hin. }
  f_equal. destruct H as [[_ (Hw & Hwlt & Hwmax)]|[Hall _]].
  - apply Hmax in Hw; [|done]. apply Hwmax in Hin; [|done]. lia.
  - apply Hall in Hin. lia.
Qed.

Lemma adjacent_label_next_is labels x v :
  least_above labels x v → adjacent_label labels x true = Ok v.
Proof.
  intros (Hin & Hlt & Hmin).
  destruct (adjacent_label_next labels x) as (w & -> & H).
  { intros ->. by apply elem_of_nil in Hin. }
  f_equal. destruct H as [[_ (Hw & Hwlt & Hwmin)]|[Hall _]].
  - apply Hmin in Hw; [|done]. apply Hwmin in Hin; [|done]. lia.
  - apply Hall in Hin. lia.
Qed.

Lemma elem_of_keys (groups : gmap Z nat) y : y ∈ keys groups ↔ y ∈ dom groups.
Proof.
  unfold keys. rewrite elem_of_dom, list_elem_of_fmap. split.
  - intros ([l i] & -> & H%elem_of_map_to_list). by eexists.
  - intros [i H]. exists (y, i). by rewrite elem_of_map_to_list.
Qed.

(** The label set {10, 30, 50}. *)
Context (labels : list Z).
Hypothesis three : ∀ y, y ∈ labels ↔ y = 10 ∨ y = 30 ∨ y = 50.

Lemma three_previous_50 : adjacent_label labels 50 false = Ok 30.
Proof.
  apply adjacent_label_previous_is. split_and!; [apply three; lia|lia|].
  intros y ?%three. lia.
Qed.
Lemma three_previous_30 : adjacent_label labels 30 false = Ok 10.
Proof.
  apply adjacent_label_previous_is. split_and!; [apply three; lia|lia|].
  intros y ?%three. lia.
Qed.
Lemma three_previous_10 : adjacent_label labels 10 false = Ok 10.
Proof.
  apply adjacent_label_previous_bottom; [|lia].
  split; [apply three; lia|]. intros y ?%three. lia.
Qed.
Lemma three_next_30 : adjacent_label labels 30 true = Ok 50.
Proof.
  apply adjacent_label_next_is. split_and!; [apply three; lia|lia|].
  intros y ?%three. lia.
Qed.

Lemma three_from_top_50 : from_top labels 50 = Ok (Some 30, Some 10).
Proof.
  unfold from_top. by rewrite three_previous_50, three_previous_30.
Qed.
Lemma three_from_top_30 : from_top labels 30 = Ok (Some 10, None).
Proof.
  unfold from_top. by rewrite three_previous_30, three_previous_10.
Qed.
Lemma three_from_top_10 : from_top labels 10 = Ok (None, None).
Proof. unfold from_top. by rewrite !three_previous_10. Qed.
End reading.

Lemma three_keys (groups : gmap Z nat) :
  dom groups = {[10; 30; 50]} →
  ∀ y, y ∈ keys groups ↔ y = 10 ∨ y = 30 ∨ y = 50.
Proof.
  intros Hdom y. rewrite elem_of_keys, Hdom, !elem_of_union, !elem_of_singleton.
  tauto.
Qed.

Lemma three_lookup (groups : gmap Z nat) y :
  dom groups = {[10; 30; 50]} → y = 10 ∨ y = 30 ∨ y = 50 →
  is_Some (groups !! y).
Proof.
  intros Hdom Hy. apply elem_of_dom. rewrite Hdom, !elem_of_union, !elem_of_singleton.
  tauto.
Qed.

Lemma dom_nonempty (groups : gmap Z nat) y : y ∈ dom groups → groups ≠ ∅.
Proof. intros Hy ->. by rewrite dom_empty_L in Hy. Qed.

(** What the updater assigns: a group at or below the step is shown with
    values fixed by its label, the step and the two predecessors; a group
    above the step is made invisible and keeps everything else; nothing
    outside the label map changes. *)
Lemma update_visibility_assigns (groups : gmap Z nat) step image :
  groups ≠ ∅ → live groups image → distinct_groups groups →
  ∃ second third image',
    from_top (keys groups) step = Ok (second, third) ∧
    update_visibility groups step image = (Ok tt, image') ∧
    (∀ label ID, groups !! label = Some ID → label ≤ step →
       shown_with image image' ID
         (if label =? step then TOPMOST_OPACITY else 100) (label =? step)
         (palette (recency_rank step second third label))) ∧
    (∀ label ID, groups !! label = Some ID → step < label →
       hidden_in image image' ID) ∧
    (∀ ID, (∀ label, groups !! label ≠ Some ID) →
       layers image' !! ID = layers image !! ID).
Proof.
  intros Hne Hlive Hinj.
  destruct (update_visibility_pointwise groups step image Hne Hlive Hinj)
    as (second & third & image' & Hft & Hupd & _ & Hin & Hout).
  exists second, third, image'. split_and!; [done..| | |done].
  - intros label ID Hl Hle. destruct (Hlive _ _ Hl) as [g Hg].
    specialize (Hin _ _ Hl). rewrite Hg in Hin.
    destruct (group_rule_shown step second third label g Hle)
      as (? & ? & ? & ?).
    by eexists _, _.
  - intros label ID Hl Hlt. destruct (Hlive _ _ Hl) as [g Hg].
    specialize (Hin _ _ Hl). rewrite Hg in Hin.
    cbn [fmap option_fmap option_map] in Hin.
    rewrite group_rule_hidden in Hin by done. by exists g.
Qed.

(** C1: on a label map with one live group per label, the updater leaves
    every (label, group) pair exactly as the per-group rule ([group_rule])
    makes it, with second and third as the updater computes them: a group
    with label > step is made invisible and is otherwise untouched; a group
    with label <= step is made visible, with opacity topmost at the step and
    100 otherwise, its hint member (if any) visible exactly at the step, and
    its colour member (if any) filled with the palette entry at the recency
    rank (1 at the step, 2 for second, 3 for third, 0 otherwise).  This holds
    of the layers whatever the order in which the pairs are walked. *)
Theorem update_visibility_applies_rule (groups : gmap Z nat) (step : Z)
    (image : gimp) :
  groups ≠ ∅ → live groups image → distinct_groups groups →
  ∃ second third image',
    from_top (keys groups) step = Ok (second, third) ∧
    update_visibility groups step image = (Ok tt, image') ∧
    (∀ label ID, groups !! label = Some ID →
       layers image' !! ID
       = group_rule step second third label <$> layers image !! ID) ∧
    (∀ label ID, groups !! label = Some ID → step < label →
       hidden_in image image' ID) ∧
    (∀ label ID, groups !! label = Some ID → label ≤ step →
       shown_with image image' ID
         (if label =? step then TOPMOST_OPACITY else 100) (label =? step)
         (palette (recency_rank step second third label))).
Proof.
  intros Hne Hlive Hinj.
  destruct (update_visibility_pointwise groups step image Hne Hlive Hinj)
    as (second & third & image' & Hft & Hupd & _ & Hin & _).
  exists second, third, image'. split_and!; [done..| |].
  - intros label ID Hl Hlt. destruct (Hlive _ _ Hl) as [g Hg].
    exists g. split; [done|]. rewrite (Hin label ID Hl), Hg.
    cbn [fmap option_fmap option_map]. by rewrite group_rule_hidden.
  - intros label ID Hl Hle. destruct (Hlive _ _ Hl) as [g Hg].
    destruct (group_rule_shown step second third label g Hle)
      as (? & ? & ? & ?).
    exists g, (group_rule step second third label g).
    split_and!; [done| |done..]. by rewrite (Hin label ID Hl), Hg.
Qed.

(** The updater on the label map extracted from the image itself. *)
Lemma update_visibility_extracted image step :
  let groups := extract_relevant_groups image in
  groups ≠ ∅ →
  ∃ second third image',
    from_top (keys groups) step = Ok (second, third) ∧
    update_visibility groups step image = (Ok tt, image') ∧
    (∀ label ID, groups !! label = Some ID → label ≤ step →
       shown_with image image' ID
         (if label =? step then TOPMOST_OPACITY else 100) (label =? step)
         (palette (recency_rank step second third label))) ∧
    (∀ label ID, groups !! label = Some ID → step < label →
       hidden_in image image' ID) ∧
    (∀ ID, (∀ label, groups !! label ≠ Some ID) →
       layers image' !! ID = layers image !! ID).
Proof.
  intros groups Hne. apply update_visibility_assigns; [done| |].
  - apply extract_live.
  - intros ???. apply extract_inj.
Qed.

(** C4: the updater takes second = adjacent(labels, step, previous) and
    third = adjacent(labels, second, previous), then drops third when it
    equals that second and drops second when it equals the step.  On the
    label set {10, 30, 50}: at step 50, second = 30 and third = 10, group 50
    is shown with topmost opacity and palette[1], group 30 with palette[2],
    group 10 with palette[3]; at step 10 both are none, group 10 is shown
    fully opaque with palette[1], groups 30 and 50 are made invisible. *)
Theorem update_visibility_predecessors :
  (∀ (groups : gmap Z nat) step,
     groups ≠ ∅ →
     ∃ s0 t0,
       adjacent_label (keys groups) step false = Ok s0 ∧
       adjacent_label (keys groups) s0 false = Ok t0 ∧
       from_top (keys groups) step
       = Ok (if s0 =? step then None else Some s0,
             if t0 =? s0 then None else Some t0)) ∧
  (∀ image,
     let groups := extract_relevant_groups image in
     dom groups = {[10; 30; 50]} →
     from_top (keys groups) 50 = Ok (Some 30, Some 10) ∧
     ∃ image' ID10 ID30 ID50,
       groups !! 10 = Some ID10 ∧ groups !! 30 = Some ID30 ∧
       groups !! 50 = Some ID50 ∧
       update_visibility groups 50 image = (Ok tt, image') ∧
       shown_with image image' ID50 TOPMOST_OPACITY true (palette 1) ∧
       shown_with image image' ID30 100 false (palette 2) ∧
       shown_with image image' ID10 100 false (palette 3)) ∧
  (∀ image,
     let groups := extract_relevant_groups image in
     dom groups = {[10; 30; 50]} →
     adjacent_label (keys groups) 10 false = Ok 10 ∧
     from_top (keys groups) 10 = Ok (None, None) ∧
     ∃ image' ID10 ID30 ID50,
       groups !! 10 = Some ID10 ∧ groups !! 30 = Some ID30 ∧
       groups !! 50 = Some ID50 ∧
       update_visibility groups 10 image = (Ok tt, image') ∧
       shown_with image image' ID10 100 true (palette 1) ∧
       hidden_in image image' ID30 ∧
       hidden_in image image' ID50).
Proof.
  split_and!.
  - intros groups step Hne%keys_nonempty. unfold from_top.
    destruct (adjacent_label_previous _ step Hne) as (s0 & Hs0 & _).
    destruct (adjacent_label_previous _ s0 Hne) as (t0 & Ht0 & _).
    exists s0, t0. by rewrite Hs0, Ht0.
  - intros image groups Hdom. pose proof (three_keys _ Hdom) as Hthree.
    split; [by apply three_from_top_50|].
    destruct (three_lookup groups 10 Hdom) as [ID10 H10]; [lia|].
    destruct (three_lookup groups 30 Hdom) as [ID30 H30]; [lia|].
    destruct (three_lookup groups 50 Hdom) as [ID50 H50]; [lia|].
    destruct (update_visibility_extracted image 50)
      as (second & third & image' & Hft & Hupd & Hshown & _).
    { apply (dom_nonempty _ 10). by apply elem_of_dom. }
    fold groups in Hft, Hupd, Hshown.
    rewrite (three_from_top_50 _ Hthree) in Hft. injection Hft as <- <-.
    exists image', ID10, ID30, ID50. split_and!; [done..| | |].
    + by apply (Hshown 50).
    + by apply (Hshown 30).
    + by apply (Hshown 10).
  - intros image groups Hdom. pose proof (three_keys _ Hdom) as Hthree.
    split; [by apply three_previous_10|].
    split; [by apply three_from_top_10|].
    destruct (three_lookup groups 10 Hdom) as [ID10 H10]; [lia|].
    destruct (three_lookup groups 30 Hdom) as [ID30 H30]; [lia|].
    destruct (three_lookup groups 50 Hdom) as [ID50 H50]; [lia|].
    destruct (update_visibility_extracted image 10)
      as (second & third & image' & Hft & Hupd & Hshown & Hhidden & _).
    { apply (dom_nonempty _ 10). by apply elem_of_dom. }
    fold groups in Hft, Hupd, Hshown, Hhidden.
    rewrite (three_from_top_10 _ Hthree) in Hft. injection Hft as <- <-.
    exists image', ID10, ID30, ID50. split_and!; [done..| | |].
    + by apply (Hshown 10).
    + by apply (Hhidden 30).
    + by apply (Hhidden 50).
Qed.

(** ** The rule overwrites what an earlier rule wrote *)

Section overwriting.
(** Setting attributes of members, one after the other. *)
Lemma with_children_alter_absorb (f2 h2 f1 h1 : item → item) (jc jh : nat)
    (cs : list item) :
  (∀ m, f2 (f1 m) = f2 m) → (∀ m, h2 (h1 m) = h2 m) →
  (∀ m, h2 (f1 m) = f1 (h2 m)) →
  (∀ m, f2 (h2 (f1 (h1 m))) = f2 (h2 m)) →
  alter f2 jc (alter h2 jh (alter f1 jc (alter h1 jh cs)))
  = alter f2 jc (alter h2 jh cs).
Proof.
  intros Hf Hh Hhf Hall. apply list_eq. intros k.
  rewrite !list_lookup_alter. repeat case_decide; subst;
    destruct (cs !! k) as [m|]; simpl; try done.
  - by rewrite Hall.
  - by rewrite Hf.
  - by rewrite Hh.
Qed.

Lemma alter_absorb (f2 f1 : item → item) (j : nat) (cs : list item) :
  (∀ m, f2 (f1 m) = f2 m) → alter f2 j (alter f1 j cs) = alter f2 j cs.
Proof.
  intros Hf. rewrite list_alter_alter_eq. apply list_alter_ext; [|done].
  intros m _. apply Hf.
Qed.

(** A shown group forgets whatever an earlier rule made of it, whichever
    step that rule was for. *)
Lemma group_rule_absorb step second third step' second' third' label label' g :
  label ≤ step →
  group_rule step second third label
    (group_rule step' second' third' label' g)
  = group_rule step second third label g.
Proof.
  intros Hle. unfold group_rule at 1 3.
  assert ((label >? step) = false) as ->.
  { rewrite Z.gtb_ltb. apply Z.ltb_ge. lia. }
  destruct g as [n ig il it v o t f cs]. unfold group_rule, on_member.
  destruct (label' >? step'); simpl; [done|].
  destruct (first_member "hint" cs 0) as [jh|] eqn:Hh,
    (first_member "color" cs 0) as [jc|] eqn:Hc; simpl;
    repeat progress (rewrite ?first_member_alter, ?Hh, ?Hc by done; simpl);
    cbv [with_children with_opacity with_visible with_fill children name
           is_group is_layer is_text_layer visible opacity text fill];
    try done; f_equal.

  - by apply with_children_alter_absorb.
  - by apply alter_absorb.
  - by apply alter_absorb.
Qed.


Lemma group_rule_idemp step second third label g :
  group_rule step second third label (group_rule step second third label g)
  = group_rule step second third label g.
Proof.
  destruct (Z.le_gt_cases label step) as [Hle|Hgt].
  - by apply group_rule_absorb.
  - rewrite !group_rule_hidden by done. by destruct g.
Qed.

(** Two rules for the same step, around a third. *)
Lemma group_rule_sandwich step second third label label' g :
  group_rule step second third label
    (group_rule step second third label'
       (group_rule step second third label g))
  = group_rule step second third label
      (group_rule step second third label' g).
Proof.
  destruct (Z.le_gt_cases label step) as [Hle|Hgt].
  - by rewrite !(group_rule_absorb step second third _ _ _ label).
  - rewrite !(group_rule_hidden _ _ _ label) by done.
    destruct (Z.le_gt_cases label' step) as [Hle'|Hgt'].
    + assert (group_rule step second third label' (with_visible false g)
              = group_rule step second third label' g) as ->; [|done].
      rewrite <- (group_rule_hidden step second third label g) by done.
      by apply group_rule_absorb.
    + rewrite !group_rule_hidden by done. by destruct g.
Qed.
End overwriting.

(** ** Running the rules again changes nothing *)

Section band.
(** A family of state changes in which doing [a], then [b], then [a] again
    comes to the same as doing [b], then [a]: each change overwrites what
    it touches, whatever was there. *)
Context {State Change : Type} (act : State → Change → State).
Hypothesis act_idemp : ∀ s a, act (act s a) a = act s a.
Hypothesis act_sandwich : ∀ s a b, act (act (act s a) b) a = act (act s b) a.

Lemma foldl_act_sandwich a ws s :
  act (foldl act (act s a) ws) a = act (foldl act s ws) a.
Proof.
  revert s. induction ws as [|b ws IH] using rev_ind; intros s.
  - simpl. apply act_idemp.
  - rewrite !foldl_snoc. rewrite <- act_sandwich, IH. apply act_sandwich.
Qed.

Lemma foldl_act_absorb ws u s :
  foldl act (foldl act (foldl act s ws) u) ws = foldl act (foldl act s u) ws.
Proof.
  revert u s. induction ws as [|b ws IH]; intros u s; [done|].
  cbn [foldl].
  rewrite <- (foldl_app act ws u), foldl_act_sandwich, foldl_app.
  rewrite <- !(foldl_snoc act _ u b). apply IH.
Qed.

Lemma foldl_act_idemp ws s :
  foldl act (foldl act s ws) ws = foldl act s ws.
Proof. apply (foldl_act_absorb ws [] s). Qed.
End band.

Section again.
Context (step : Z) (second third : option Z).
Local Abbreviation rule := (group_rule step second third).
Local Abbreviation apply := (apply_rule step second third).

Lemma has_member_rule prefix label g :
  has_member prefix (rule label g) = has_member prefix g.
Proof.
  unfold has_member.
  destruct (group_rule_frame step second third label g)
    as (_ & _ & _ & _ & _ & Hm).
  by rewrite Hm.
Qed.

Lemma apply_rule_sandwich image a b :
  apply (apply (apply image a) b) a = apply (apply image b) a.
Proof.
  destruct a as [la ia], b as [lb ib], image as [ls fg].
  unfold apply_rule. cbn [layers foreground]. f_equal.
  - destruct (decide (ia = ib)) as [<-|Hne].
    + rewrite !list_alter_alter_eq. apply list_alter_ext; [|done].
      intros g _. apply group_rule_sandwich.
    + rewrite (list_alter_alter_ne _ _ _ ib ia) by done.
      rewrite list_alter_alter_eq.
      apply list_alter_ext; [|done]. intros g _. apply group_rule_idemp.
  - rewrite !list_lookup_alter.
    destruct (ls !! ia) as [ga|] eqn:Ha, (ls !! ib) as [gb|] eqn:Hb;
      repeat case_decide; simplify_eq; simpl; rewrite ?has_member_rule;
      repeat (destruct (negb _ && _)); done.
Qed.

Lemma apply_rule_idemp image a : apply (apply image a) a = apply image a.
Proof.
  destruct a as [la ia], image as [ls fg].
  unfold apply_rule. cbn [layers foreground]. f_equal.
  - rewrite list_alter_alter_eq. apply list_alter_ext; [|done].
    intros g _. apply group_rule_idemp.
  - rewrite list_lookup_alter_eq.
    destruct (ls !! ia) as [g|]; simpl; [|done].
    rewrite has_member_rule.
    by destruct (negb (la >? step) && has_member "color" g).
Qed.

Lemma foldl_apply_rule_idemp entries image :
  foldl apply (foldl apply image entries) entries
  = foldl apply image entries.
Proof.
  apply foldl_act_idemp; [apply apply_rule_idemp|apply apply_rule_sandwich].
Qed.

(** The loop either completes, having applied the rule to each entry, or
    stops at a dangling [ID]. *)
Lemma for_each_update_group_inv labels entries image r image' :
  from_top labels step = Ok (second, third) →
  for_each entries (update_group step second third) image = (r, image') →
  (r = Ok tt ∧ image' = foldl apply image entries ∧
   ∀ label ID, (label, ID) ∈ entries → is_Some (layers image !! ID)) ∨
  r = Raise AttributeError.
Proof.
  intros Hft. revert image.
  induction entries as [|[label ID] entries IH]; intros image.
  - intros [= <- <-]. left. split_and!; [done..|].
    by intros ?? ?%elem_of_nil.
  - cbn [for_each foldl]. unfold bind at 1.
    destruct (layers image !! ID) as [g|] eqn:Hg.
    + rewrite (update_group_rule _ _ _ _ _ _ _ _ Hft Hg).
      intros [(-> & -> & Hlive)| ->]%IH; [left|by right].
      split_and!; [done..|]. intros label' ID' [Heq|Hin]%elem_of_cons.
      * injection Heq as -> ->. by eexists.
      * apply Hlive in Hin. apply lookup_lt_is_Some in Hin.
        rewrite apply_rule_length in Hin. by apply lookup_lt_is_Some.
    + rewrite update_group_dangling by done. intros [= <- <-]. by right.
Qed.
End again.

(** The updater run twice in a row is the updater run once: same outcome,
    same state. *)
Lemma update_visibility_twice (groups : gmap Z nat) step image :
  (update_visibility groups step ;; update_visibility groups step) image
  = update_visibility groups step image.
Proof.
  unfold bind at 1.
  destruct (update_visibility groups step image) as [[[]|e] image'] eqn:Hupd;
    [|done].
  unfold update_visibility, bind, lift in *.
  destruct (from_top (keys groups) step) as [[second third]|e] eqn:Hft;
    [|done].
  simpl in *.
  apply (for_each_update_group_inv _ _ _ _ _ _ _ _ Hft) in Hupd
    as [(_ & -> & Hlive)|?]; [|done].
  erewrite for_each_update_group; [|done|].
  - by rewrite foldl_apply_rule_idemp.
  - intros label ID Hin%Hlive. apply lookup_lt_is_Some.
    rewrite foldl_apply_rule_length. by apply lookup_lt_is_Some.
Qed.

(** ** Decimal strings *)

Section decimal.
Import Decimal.

Lemma digits_of_uint_acc d acc :
  Py.digits (Z.pos acc) (NilEmpty.string_of_uint d)
  = Some (Z.pos (Pos.of_uint_acc d acc)).
Proof.
  revert acc. induction d; intros acc; simpl; [done|..];
    unfold Py.digit; simpl; rewrite <- IHd; f_equal;
    match goal with
    | |- context [Z.of_nat (nat_of_ascii ?c)] =>
        let v := eval vm_compute in (Z.of_nat (nat_of_ascii c)) in
        change (Z.of_nat (nat_of_ascii c)) with v
    end; lia.
Qed.

Lemma digits_of_uint d :
  Py.digits 0 (NilEmpty.string_of_uint d) = Some (Z.of_N (Pos.of_uint d)).
Proof.
  induction d; simpl; [done|..]; unfold Py.digit; simpl;
    match goal with
    | |- context [10 * 0 + (Z.of_nat (nat_of_ascii ?c) - 48)] =>
        let v := eval vm_compute in (10 * 0 + (Z.of_nat (nat_of_ascii c) - 48))
        in change (10 * 0 + (Z.of_nat (nat_of_ascii c) - 48)) with v
    end; [done|by rewrite digits_of_uint_acc..].
Qed.

Lemma rstrip_of_uint d :
  Py.rstrip (NilEmpty.string_of_uint d) = NilEmpty.string_of_uint d.
Proof. induction d; simpl; [done|..]; rewrite IHd; by destruct d. Qed.

Lemma strip_of_uint d :
  Py.strip (NilEmpty.string_of_uint d) = NilEmpty.string_of_uint d.
Proof.
  unfold Py.strip.
  assert (Py.lstrip (NilEmpty.string_of_uint d) = NilEmpty.string_of_uint d)
    as -> by by destruct d.
  apply rstrip_of_uint.
Qed.

Lemma int_of_uint d :
  d ≠ Nil →
  Py.int (NilEmpty.string_of_uint d) = Some (Z.of_N (Pos.of_uint d)) ∧
  Py.int (String "-" (NilEmpty.string_of_uint d))
  = Some (- Z.of_N (Pos.of_uint d)).
Proof.
  intros Hd. unfold Py.int. split.
  - rewrite strip_of_uint. rewrite <- digits_of_uint. by destruct d.
  - unfold Py.strip. cbn [Py.lstrip]. change (Py.isspace "-") with false.
    cbv iota. cbn [Py.rstrip]. rewrite rstrip_of_uint.
    assert (Py.unsigned (NilEmpty.string_of_uint d)
            = Some (Z.of_N (Pos.of_uint d))) as Hu.
    { rewrite <- digits_of_uint. by destruct d. }
    destruct d; try done; simpl in *; by rewrite Hu.
Qed.

(** What [str] prints, [int] reads back. *)
Lemma int_str n : Py.int (Py.str n) = Some n.
Proof.
  unfold Py.str. destruct n as [|p|p]; [done|..]; simpl.
  - pose proof (DecimalPos.Unsigned.to_uint_nonnil p) as Hnil.
    destruct (int_of_uint (Pos.to_uint p) Hnil) as [H _].
    rewrite DecimalPos.Unsigned.of_to in H. unfold NilZero.string_of_uint.
    by destruct (Pos.to_uint p).
  - pose proof (DecimalPos.Unsigned.to_uint_nonnil p) as Hnil.
    destruct (int_of_uint (Pos.to_uint p) Hnil) as [_ H].
    rewrite DecimalPos.Unsigned.of_to in H. unfold NilZero.string_of_uint.
    by destruct (Pos.to_uint p).
Qed.
End decimal.

(** ** The step controller *)

Section controller.
Lemma first_step_layer_from k ls ID layer :
  first_step_layer (imap (λ n, pair (k + n)%nat) ls) = Some (ID, layer) ↔
  (k ≤ ID)%nat ∧ ls !! (ID - k)%nat = Some layer ∧
  is_text_layer layer = true ∧ name layer = "step" ∧
  ∀ j layer', (j < ID - k)%nat → ls !! j = Some layer' →
              ¬ (is_text_layer layer' = true ∧ name layer' = "step").
Proof.
  revert k. induction ls as [|l ls IH]; intros k.
  - simpl. split; [done|]. by intros (_ & ? & _).
  - rewrite imap_cons. cbn [first_step_layer]. rewrite Nat.add_0_r.
    rewrite (imap_ext _ (λ n, pair (S k + n)%nat)); last first.
    { intros i x _. simpl. f_equal. lia. }
    destruct (is_text_layer l && (name l =? "step")%string) eqn:E.
    + apply andb_true_iff in E as [Ht Hn%String.eqb_eq]. split.
      * intros [= <- <-]. rewrite Nat.sub_diag.
        split_and!; [lia|done..|]. intros j ? Hj. lia.
      * intros (Hle & Hl & _ & _ & Hfirst).
        destruct (ID - k)%nat as [|d] eqn:Hd.
        -- injection Hl as <-. do 2 f_equal. lia.
        -- destruct (Hfirst 0%nat l); [lia|done|done].
    + rewrite IH. split.
      * intros (Hle & Hl & Ht & Hn & Hfirst).
        replace (ID - k)%nat with (S (ID - S k)) by lia.
        split_and!; [lia|done..|].
        intros [|j] layer' Hj; simpl.
        -- intros [= <-] [Ht' Hn']. rewrite Ht', Hn' in E. done.
        -- apply Hfirst. lia.
      * intros (Hle & Hl & Ht & Hn & Hfirst).
        destruct (ID - k)%nat as [|d] eqn:Hd; simpl in Hl.
        -- injection Hl as <-. rewrite Ht, Hn in E. done.
        -- replace (ID - S k)%nat with d by lia.
           split_and!; [lia|done..|].
           intros j layer' Hj Hl'. apply (Hfirst (S j)); [lia|done].
Qed.

Lemma first_step_layer_marker image ID layer :
  first_step_layer (enumerate (layers image)) = Some (ID, layer)
  ↔ marker_at image ID layer.
Proof.
  unfold enumerate, marker_at.
  rewrite (imap_ext _ (λ n, pair (0 + n)%nat)) by done.
  rewrite first_step_layer_from, Nat.sub_0_r. split.
  - intros (_ & ? & ? & ? & Hfirst). by split_and!.
  - intros (? & ? & ? & Hfirst). split_and!; [lia|done..].
Qed.

Lemma first_step_layer_no_marker image :
  no_marker image → first_step_layer (enumerate (layers image)) = None.
Proof.
  intros Hno.
  destruct (first_step_layer _) as [[ID layer]|] eqn:E; [|done].
  apply first_step_layer_marker in E as (Hl & Ht & Hn & _).
  by destruct (Hno ID layer Hl).
Qed.

Lemma first_step_layer_None_from k ls :
  first_step_layer (imap (λ n, pair (k + n)%nat) ls) = None →
  ∀ j layer, ls !! j = Some layer →
             ¬ (is_text_layer layer = true ∧ name layer = "step").
Proof.
  revert k. induction ls as [|l ls IH]; intros k; [done|].
  rewrite imap_cons. cbn [first_step_layer].
  rewrite (imap_ext _ (λ n, pair (S k + n)%nat)); last first.
  { intros i x _. simpl. f_equal. lia. }
  destruct (is_text_layer l && (name l =? "step")%string) eqn:E; [done|].
  intros Hnone [|j] layer; simpl.
  - intros [= <-] [Ht Hn]. rewrite Ht, Hn in E. done.
  - by apply (IH (S k)).
Qed.

Lemma first_step_layer_None image :
  first_step_layer (enumerate (layers image)) = None → no_marker image.
Proof.
  unfold enumerate. rewrite (imap_ext _ (λ n, pair (0 + n)%nat)) by done.
  intros H. exact (first_step_layer_None_from 0 _ H).
Qed.

(** The controller once the marker is read. *)
Lemma update_step_unfold direction image ID layer current_step :
  marker_at image ID layer → Py.int (text layer) = Some current_step →
  update_step direction image =
    match adjacent_label (keys (extract_relevant_groups image))
            current_step direction with
    | Ok new_step =>
        update_visibility (extract_relevant_groups image) new_step
          (update (with_text (Py.str new_step)) (Top ID) image)
    | Raise e => (Raise e, image)
    end.
Proof.
  intros Hm%first_step_layer_marker Hint.
  unfold update_step, bind, gets. rewrite Hm, Hint. unfold lift.
  by destruct (adjacent_label _ _ _).
Qed.
End controller.

(** With a valid marker but no step group the controller stops at the
    resolver, before it writes anything. *)
Lemma update_step_no_groups direction image ID layer current_step :
  marker_at image ID layer → Py.int (text layer) = Some current_step →
  extract_relevant_groups image = ∅ →
  update_step direction image = (Raise IndexError, image).
Proof.
  intros Hm Hint Hempty.
  rewrite (update_step_unfold direction _ _ _ _ Hm Hint), Hempty.
  by rewrite adjacent_label_empty.
Qed.

(** C5: without a top-level text layer named exactly "step" the controller
    fails with the missing-marker error, with a marker whose text is not an
    integer it fails with the invalid-content error, and in both cases the
    host state is exactly as it was. *)
Theorem update_step_fails_untouched (direction : bool) (image : gimp) :
  (no_marker image →
   update_step direction image = (Raise missing_marker, image)) ∧
  (∀ ID layer,
     marker_at image ID layer → Py.int (text layer) = None →
     update_step direction image = (Raise invalid_content, image)).
Proof.
  split.
  - intros Hno%first_step_layer_no_marker.
    unfold update_step, bind, gets. by rewrite Hno.
  - intros ID layer Hm%first_step_layer_marker Hint.
    unfold update_step, bind, gets. by rewrite Hm, Hint.
Qed.

(** ** What the plug-in never changes *)

Section outline.
Lemma label_of_outline a b : outline a = outline b → label_of a = label_of b.
Proof. unfold outline, label_of. by intros [= -> -> _]. Qed.

Lemma outline_alter (f : item → item) (ID : nat) (ls : list item) :
  (∀ it, outline (f it) = outline it) →
  outline <$> alter f ID ls = outline <$> ls.
Proof.
  intros Hf. rewrite (list_fmap_alter _ _ id).
  - by apply list_alter_id.
  - apply Forall_forall. intros it _. apply Hf.
Qed.

Lemma outline_rule step second third label g :
  outline (group_rule step second third label g) = outline g.
Proof.
  destruct (group_rule_frame step second third label g)
    as (Hn & Hg & _ & Ht & _).
  unfold outline. by rewrite Hn, Hg, Ht.
Qed.

Lemma outline_apply_rule step second third image entry :
  outline <$> layers (apply_rule step second third image entry)
  = outline <$> layers image.
Proof.
  destruct entry as [label ID]. simpl. apply outline_alter.
  intros it. apply outline_rule.
Qed.

Lemma outline_foldl_apply_rule step second third image entries :
  outline <$> layers (foldl (apply_rule step second third) image entries)
  = outline <$> layers image.
Proof.
  revert image. induction entries as [|e entries IH]; intros image; [done|].
  cbn [foldl]. by rewrite IH, outline_apply_rule.
Qed.

Lemma outline_set_text t ID image :
  outline <$> layers (update (with_text t) (Top ID) image)
  = outline <$> layers image.
Proof. simpl. by apply outline_alter. Qed.

(** The label map is read off the outlines alone. *)
Lemma extract_outline a b :
  outline <$> layers a = outline <$> layers b →
  extract_relevant_groups a = extract_relevant_groups b.
Proof.
  destruct a as [la fa], b as [lb fb]. simpl. revert lb.
  induction la as [|x la IH] using rev_ind; intros lb Hout.
  - symmetry in Hout. apply fmap_nil_inv in Hout as ->. done.
  - rewrite fmap_app in Hout. symmetry in Hout.
    apply fmap_app_inv in Hout as (lb' & ys & Hlb' & Hys & ->).
    symmetry in Hys. apply fmap_cons_inv in Hys as (y & ys' & Hy & Hys' & ->).
    symmetry in Hys'. apply fmap_nil_inv in Hys' as ->.
    rewrite !extract_snoc, !extract_layer_label_of.
    rewrite (IH lb') by done.
    rewrite (label_of_outline x y) by done.
    assert (length la = length lb') as ->; [|done].
    by rewrite <- (length_fmap outline la), Hlb', length_fmap.
Qed.

Lemma outline_lookup a b ID x :
  outline <$> layers a = outline <$> layers b →
  layers a !! ID = Some x →
  ∃ y, layers b !! ID = Some y ∧ outline y = outline x.
Proof.
  intros Hout Hx.
  assert ((outline <$> layers b) !! ID = Some (outline x)) as Hy.
  { by rewrite <- Hout, list_lookup_fmap, Hx. }
  rewrite list_lookup_fmap in Hy.
  destruct (layers b !! ID) as [y|]; [|done].
  cbn [fmap option_fmap option_map] in Hy. exists y. split; congruence.
Qed.

(** So is the position of the Step Marker. *)
Lemma marker_at_outline a b ID x y :
  outline <$> layers a = outline <$> layers b →
  marker_at a ID x → layers b !! ID = Some y → marker_at b ID y.
Proof.
  intros Hout (Hx & Ht & Hn & Hfirst) Hy.
  destruct (outline_lookup a b ID x Hout Hx) as (y' & Hy' & [= Hn' _ Ht']).
  rewrite Hy in Hy'. injection Hy' as <-.
  split_and!; [done|congruence..|].
  intros ID' y' Hlt Hy' [Ht'' Hn''].
  destruct (outline_lookup b a ID' y') as (x' & Hx' & [= Hnx _ Htx]);
    [done..|].
  apply (Hfirst ID' x' Hlt Hx'). split; congruence.
Qed.

Lemma marker_not_group image ID layer label :
  marker_at image ID layer →
  extract_relevant_groups image !! label ≠ Some ID.
Proof.
  intros (Hl & _ & Hn & _) (layer' & Hl' & Hlabel)%extract_lookup.
  rewrite Hl in Hl'. injection Hl' as <-.
  unfold label_of in Hlabel. rewrite Hn in Hlabel.
  by rewrite andb_false_r in Hlabel.
Qed.
End outline.

(** One step of the controller on a document with a valid Step Marker and
    at least one step group. *)
Lemma update_step_spec direction image ID layer current_step :
  marker_at image ID layer → Py.int (text layer) = Some current_step →
  extract_relevant_groups image ≠ ∅ →
  let groups := extract_relevant_groups image in
  ∃ new_step second third image',
    adjacent_label (keys groups) current_step direction = Ok new_step ∧
    from_top (keys groups) new_step = Ok (second, third) ∧
    update_step direction image = (Ok tt, image') ∧
    extract_relevant_groups image' = groups ∧
    marker_at image' ID (with_text (Py.str new_step) layer) ∧
    (∀ label ID', groups !! label = Some ID' →
       layers image' !! ID'
       = group_rule new_step second third label <$> layers image !! ID') ∧
    (∀ ID', ID' ≠ ID → (∀ label, groups !! label ≠ Some ID') →
       layers image' !! ID' = layers image !! ID').
Proof.
  intros Hm Hint Hne groups.
  destruct (adjacent_label (keys groups) current_step direction)
    as [new_step|e] eqn:Hadj; last first.
  { destruct direction.
    - destruct (adjacent_label_next (keys groups) current_step)
        as (? & ? & _); [by apply keys_nonempty|congruence].
    - destruct (adjacent_label_previous (keys groups) current_step)
        as (? & ? & _); [by apply keys_nonempty|congruence]. }
  pose proof (update_step_unfold direction _ _ _ _ Hm Hint) as Hstep.
  fold groups in Hstep. rewrite Hadj in Hstep.
  set (image_t := update (with_text (Py.str new_step)) (Top ID) image) in *.
  assert (extract_relevant_groups image_t = groups) as Hext.
  { apply extract_outline, outline_set_text. }
  destruct (update_visibility_pointwise groups new_step image_t Hne)
    as (second & third & image' & Hft & Hupd & _ & Hin & Hout).
  { rewrite <- Hext. apply extract_live. }
  { intros ???. apply extract_inj. }
  pose proof Hm as (Hl & _).
  assert (∀ ID', ID' ≠ ID → layers image_t !! ID' = layers image !! ID')
    as Hother.
  { intros ID' ?. simpl. by apply list_lookup_alter_ne. }
  assert (layers image_t !! ID = Some (with_text (Py.str new_step) layer))
    as Hmarker.
  { simpl. by rewrite list_lookup_alter_eq, Hl. }
  assert (outline <$> layers image' = outline <$> layers image) as Houtline.
  { destruct (update_visibility_fold groups new_step image_t Hne)
      as (s' & t' & Hft' & Hupd').
    { rewrite <- Hext. apply extract_live. }
    rewrite Hupd in Hupd'. injection Hupd' as ->.
    rewrite outline_foldl_apply_rule. apply outline_set_text. }
  exists new_step, second, third, image'.
  split_and!; [done|done|congruence| | | |].
  - by apply extract_outline.
  - eapply marker_at_outline; [done|done|].
    rewrite Hout; [done|]. intros label. by eapply marker_not_group.
  - intros label ID' Hlabel. rewrite (Hin label ID') by done.
    rewrite Hother; [done|].
    intros ->. by eapply marker_not_group.
  - intros ID' Hne' Hno. rewrite Hout by done. by apply Hother.
Qed.

(** C10: on a document with a valid Step Marker and at least one step
    group, a step in either direction succeeds, and afterwards the marker's
    text is the decimal string of a key of the freshly extracted label map
    (and reads back as that key), whatever the marker held before; the
    updater ran with that key as the current step. *)
Theorem update_step_lands_on_label (direction : bool) (image : gimp)
    (ID : nat) (layer : item) (current_step : Z) :
  marker_at image ID layer → Py.int (text layer) = Some current_step →
  extract_relevant_groups image ≠ ∅ →
  ∃ new_step image' layer',
    update_step direction image = (Ok tt, image') ∧
    marker_at image' ID layer' ∧ text layer' = Py.str new_step ∧
    Py.int (text layer') = Some new_step ∧
    new_step ∈ dom (extract_relevant_groups image') ∧
    update_step direction image
    = update_visibility (extract_relevant_groups image) new_step
        (update (with_text (Py.str new_step)) (Top ID) image) ∧
    new_step ∈ dom (extract_relevant_groups image).
Proof.
  intros Hm Hint Hne.
  destruct (update_step_spec direction _ _ _ _ Hm Hint Hne)
    as (new_step & second & third & image' & Hadj & _ & Hstep & Hext & Hm'
        & _).
  assert (new_step ∈ dom (extract_relevant_groups image)) as Hin.
  { apply elem_of_keys. by eapply adjacent_label_elem_of. }
  exists new_step, image', (with_text (Py.str new_step) layer).
  split_and!; [done..|apply int_str|by rewrite Hext| |done].
  rewrite (update_step_unfold direction _ _ _ _ Hm Hint). by rewrite Hadj.
Qed.

Example sample_groups :
  map_to_list (extract_relevant_groups sample)
  = [(30, 4%nat); (50, 0%nat); (10, 2%nat)].
Proof. by vm_compute. Qed.

(** The sample document is what the updater makes of it at step 30. *)
Example sample_at_30 :
  update_visibility (extract_relevant_groups sample) 30 sample
  = (Ok tt, sample).
Proof. by vm_compute. Qed.

(** ** Advance, then retreat *)

(** C7, as stated, fails on the sample document: it stands at step 30, and
    after advance and retreat the marker is back at "30", but group 50 has
    kept the opacity the advance gave it (100 instead of 40), the fill of
    its colour member and its visible hint. *)
Lemma round_trip_keeps_traces : ¬ round_trip_restores sample.
Proof.
  intros (image2 & image30 & ID & layer & H2 & H30 & _ & _ & Heq).
  vm_compute in H2. injection H2 as <-.
  vm_compute in H30. injection H30 as <-.
  vm_compute in Heq. discriminate Heq.
Qed.

(** C7, amended: on a document with label set {10, 30, 50} whose marker
    holds 30, advance followed by retreat succeeds and leaves the marker at
    "30"; compared with the updater run at step 30 on the original document,
    groups 10 and 30 and all layers outside the label map (the marker apart)
    come out the same, while group 50, invisible in both, keeps what the
    advance made of it. *)
Theorem advance_retreat_from_30 (image : gimp) (ID : nat) (layer : item) :
  dom (extract_relevant_groups image) = {[10; 30; 50]} →
  marker_at image ID layer → Py.int (text layer) = Some 30 →
  let groups := extract_relevant_groups image in
  ∃ image1 image2 image30,
    increase_step image = (Ok tt, image1) ∧
    decrease_step image1 = (Ok tt, image2) ∧
    update_visibility groups 30 image = (Ok tt, image30) ∧
    marker_at image2 ID (with_text "30" layer) ∧
    (∀ label ID', groups !! label = Some ID' → label ≤ 30 →
       layers image2 !! ID' = layers image30 !! ID') ∧
    (∀ ID', groups !! 50 = Some ID' →
       ∃ g, layers image !! ID' = Some g ∧
            layers image30 !! ID' = Some (with_visible false g) ∧
            layers image2 !! ID'
            = Some (with_visible false
                      (group_rule 50 (Some 30) (Some 10) 50 g))) ∧
    (∀ ID', ID' ≠ ID → (∀ label, groups !! label ≠ Some ID') →
       layers image2 !! ID' = layers image30 !! ID').
Proof.
  intros Hdom Hm Hint groups. subst groups.
  pose proof (three_keys _ Hdom) as Hthree.
  assert (extract_relevant_groups image ≠ ∅) as Hne.
  { apply (dom_nonempty _ 10). rewrite Hdom.
    rewrite !elem_of_union, !elem_of_singleton. tauto. }
  (* advance *)
  destruct (update_step_spec true _ _ _ _ Hm Hint Hne)
    as (s1 & second1 & third1 & image1 & Hadj1 & Hft1 & Hstep1 & Hext1 & Hm1
        & Hin1 & Hout1).
  rewrite (three_next_30 _ Hthree) in Hadj1. injection Hadj1 as <-.
  rewrite (three_from_top_50 _ Hthree) in Hft1. injection Hft1 as <- <-.
  (* retreat *)
  assert (Py.int (text (with_text (Py.str 50) layer)) = Some 50) as Hint1
    by done.
  assert (extract_relevant_groups image1 ≠ ∅) as Hne1 by by rewrite Hext1.
  destruct (update_step_spec false _ _ _ _ Hm1 Hint1 Hne1)
    as (s2 & second2 & third2 & image2 & Hadj2 & Hft2 & Hstep2 & Hext2 & Hm2
        & Hin2 & Hout2).
  rewrite Hext1 in Hadj2, Hft2, Hext2, Hin2, Hout2.
  rewrite (three_previous_50 _ Hthree) in Hadj2. injection Hadj2 as <-.
  rewrite (three_from_top_30 _ Hthree) in Hft2. injection Hft2 as <- <-.
  (* the updater at step 30 on the original document *)
  destruct (update_visibility_pointwise _ 30 image Hne)
    as (second & third & image30 & Hft & Hupd & _ & Hin & Hout).
  { apply extract_live. } { intros ???. apply extract_inj. }
  rewrite (three_from_top_30 _ Hthree) in Hft. injection Hft as <- <-.
  exists image1, image2, image30. split_and!.
  - unfold increase_step, bind. by rewrite Hstep1.
  - unfold decrease_step, bind. by rewrite Hstep2.
  - done.
  - by destruct layer.
  - intros label ID' Hlabel Hle.
    rewrite (Hin2 label), (Hin1 label), (Hin label) by done.
    destruct (layers image !! ID') as [g|]; [|done]. simpl. f_equal.
    by apply group_rule_absorb.
  - intros ID' Hlabel. destruct (extract_live image _ _ Hlabel) as [g Hg].
    exists g. split; [done|].
    rewrite (Hin2 50), (Hin1 50), (Hin 50), Hg by done. done.
  - intros ID' Hne' Hno. by rewrite Hout2, Hout1, Hout.
Qed.

(** ** Idempotence, and what carries over *)

(** C6, as stated, fails in its second half: the sample document and its
    copy with group 50 fully opaque are two states of one document, the
    label map and the step are the same, and the updater leaves group 50 at
    40% opacity in the one and at 100% in the other. *)
Lemma hidden_group_carries_over :
  ¬ state_determined (extract_relevant_groups sample) 30.
Proof.
  intros H.
  specialize (H sample sample_opaque sample sample_opaque).
  assert (same_document sample sample_opaque) as Hsame by by vm_compute.
  assert (update_visibility (extract_relevant_groups sample) 30 sample
          = (Ok tt, sample)) as Ha by by vm_compute.
  assert (update_visibility (extract_relevant_groups sample) 30 sample_opaque
          = (Ok tt, sample_opaque)) as Hb by by vm_compute.
  specialize (H Hsame Ha Hb). vm_compute in H. discriminate H.
Qed.

(** C6, amended: the updater is idempotent -- run twice in a row with the
    same label map and step it ends in exactly the state of a single run --
    and the values it assigns depend on the label map and the step alone:
    every group at or below the step is made visible with opacity topmost or
    100, hint visible exactly at the step and colour member filled by rank.
    A group above the step is only made invisible: its opacity and its
    members stay as they were before the call. *)
Theorem update_visibility_idempotent (groups : gmap Z nat) (step : Z)
    (image : gimp) :
  (update_visibility groups step ;; update_visibility groups step) image
  = update_visibility groups step image ∧
  (groups ≠ ∅ → live groups image → distinct_groups groups →
   ∃ second third image',
     from_top (keys groups) step = Ok (second, third) ∧
     update_visibility groups step image = (Ok tt, image') ∧
     (∀ label ID, groups !! label = Some ID → label ≤ step →
        shown_with image image' ID
          (if label =? step then TOPMOST_OPACITY else 100) (label =? step)
          (palette (recency_rank step second third label))) ∧
     (∀ label ID, groups !! label = Some ID → step < label →
        hidden_in image image' ID) ∧
     (∀ ID, (∀ label, groups !! label ≠ Some ID) →
        layers image' !! ID = layers image !! ID)).
Proof.
  split; [apply update_visibility_twice|apply update_visibility_assigns].
Qed.

(** ** The properties at work on the sample document *)

Lemma sample_nonempty : extract_relevant_groups sample ≠ ∅.
Proof.
  intros H. apply (f_equal (λ m : gmap Z nat, m !! 10)) in H.
  vm_compute in H. discriminate H.
Qed.

Lemma sample_dom : dom (extract_relevant_groups sample) = {[10; 30; 50]}.
Proof.
  apply set_eq. intros y.
  rewrite <- elem_of_keys, !elem_of_union, !elem_of_singleton.
  assert (keys (extract_relevant_groups sample) = [30; 50; 10]) as ->
    by by vm_compute.
  rewrite !elem_of_cons, elem_of_nil. tauto.
Qed.

Lemma sample_marker : marker_at sample 1 (text_layer "step" "30").
Proof. apply first_step_layer_marker. by vm_compute. Qed.

Lemma update_visibility_applies_rule_witness :
  extract_relevant_groups sample ≠ ∅ ∧
  live (extract_relevant_groups sample) sample ∧
  distinct_groups (extract_relevant_groups sample) ∧
  ∃ image',
    update_visibility (extract_relevant_groups sample) 50 sample
    = (Ok tt, image') ∧
    shown_with sample image' 0 TOPMOST_OPACITY true (palette 1).
Proof.
  assert (distinct_groups (extract_relevant_groups sample)) as Hinj.
  { intros ???. apply extract_inj. }
  split; [exact sample_nonempty|]. split; [exact (extract_live sample)|].
  split; [exact Hinj|].
  destruct (update_visibility_applies_rule (extract_relevant_groups sample)
              50 sample sample_nonempty (extract_live sample) Hinj)
    as (second & third & image' & Hft & Hupd & _ & _ & Hshown).
  assert (from_top (keys (extract_relevant_groups sample)) 50
          = Ok (Some 30, Some 10)) as Hft' by by vm_compute.
  rewrite Hft' in Hft. injection Hft as <- <-.
  exists image'. split; [exact Hupd|].
  apply (Hshown 50 0%nat); [by vm_compute|lia].
Defined.

Lemma update_visibility_predecessors_witness :
  dom (extract_relevant_groups sample) = {[10; 30; 50]} ∧
  from_top (keys (extract_relevant_groups sample)) 50 = Ok (Some 30, Some 10) ∧
  from_top (keys (extract_relevant_groups sample)) 10 = Ok (None, None).
Proof.
  split; [exact sample_dom|].
  destruct update_visibility_predecessors as (_ & H50 & H10).
  destruct (H50 sample sample_dom) as [? _].
  destruct (H10 sample sample_dom) as (_ & ? & _).
  done.
Defined.

Lemma update_step_fails_untouched_witness :
  no_marker sample_unmarked ∧
  update_step true sample_unmarked = (Raise missing_marker, sample_unmarked) ∧
  marker_at sample_garbled 1 (text_layer "step" "thirty") ∧
  Py.int "thirty" = None ∧
  update_step false sample_garbled = (Raise invalid_content, sample_garbled).
Proof.
  assert (no_marker sample_unmarked) as Hno.
  { apply first_step_layer_None. by vm_compute. }
  assert (marker_at sample_garbled 1 (text_layer "step" "thirty")) as Hm.
  { apply first_step_layer_marker. by vm_compute. }
  split_and!; [exact Hno| |exact Hm|reflexivity|].
  - exact (proj1 (update_step_fails_untouched true sample_unmarked) Hno).
  - exact (proj2 (update_step_fails_untouched false sample_garbled)
             1%nat (text_layer "step" "thirty") Hm eq_refl).
Defined.

Lemma update_visibility_idempotent_witness :
  extract_relevant_groups sample ≠ ∅ ∧
  live (extract_relevant_groups sample) sample ∧
  distinct_groups (extract_relevant_groups sample) ∧
  ∃ image',
    update_visibility (extract_relevant_groups sample) 10 sample
    = (Ok tt, image') ∧
    hidden_in sample image' 0.
Proof.
  assert (distinct_groups (extract_relevant_groups sample)) as Hinj.
  { intros ???. apply extract_inj. }
  split_and!; [exact sample_nonempty|exact (extract_live sample)|exact Hinj|].
  destruct (proj2 (update_visibility_idempotent
                     (extract_relevant_groups sample) 10 sample)
              sample_nonempty (extract_live sample) Hinj)
    as (second & third & image' & _ & Hupd & _ & Hhidden & _).
  exists image'. split; [exact Hupd|]. apply (Hhidden 50); [by vm_compute|lia].
Defined.

Lemma advance_retreat_from_30_witness :
  dom (extract_relevant_groups sample) = {[10; 30; 50]} ∧
  marker_at sample 1 (text_layer "step" "30") ∧
  Py.int (text (text_layer "step" "30")) = Some 30 ∧
  ∃ image1 image2,
    increase_step sample = (Ok tt, image1) ∧
    decrease_step image1 = (Ok tt, image2) ∧
    marker_at image2 1 (text_layer "step" "30").
Proof.
  split_and!; [exact sample_dom|exact sample_marker|reflexivity|].
  destruct (advance_retreat_from_30 sample 1 (text_layer "step" "30")
              sample_dom sample_marker eq_refl)
    as (image1 & image2 & image30 & H1 & H2 & _ & Hm & _).
  exists image1, image2. split_and!; [exact H1|exact H2|exact Hm].
Defined.

Lemma extract_only_step_groups_witness :
  extract_relevant_groups sample !! 50 = Some 0%nat ∧
  ∃ layer, layers sample !! 0%nat = Some layer ∧ step_group layer 50.
Proof.
  assert (extract_relevant_groups sample !! 50 = Some 0%nat) as H
    by by vm_compute.
  split; [exact H|].
  exact (proj1 extract_only_step_groups sample 50 0%nat H).
Defined.

Lemma update_step_lands_on_label_witness :
  marker_at sample 1 (text_layer "step" "30") ∧
  Py.int (text (text_layer "step" "30")) = Some 30 ∧
  extract_relevant_groups sample ≠ ∅ ∧
  ∃ new_step image',
    update_step true sample = (Ok tt, image') ∧
    new_step ∈ dom (extract_relevant_groups image').
Proof.
  split_and!; [exact sample_marker|reflexivity|exact sample_nonempty|].
  destruct (update_step_lands_on_label true sample 1 (text_layer "step" "30")
              30 sample_marker eq_refl sample_nonempty)
    as (new_step & image' & layer' & Hstep & _ & _ & _ & Hin & _).
  exists new_step, image'. split; [exact Hstep|exact Hin].
Defined.

(** * Further properties of the code *)

(** ** adjacent_label *)

Section resolver.
Implicit Types (labels : list Z) (x v : Z).

Lemma adjacent_label_Ok labels x direction :
  labels ≠ [] → ∃ v, adjacent_label labels x direction = Ok v.
Proof.
  intros Hne. destruct direction.
  - destruct (adjacent_label_next labels x Hne) as (v & ? & _). eauto.
  - destruct (adjacent_label_previous labels x Hne) as (v & ? & _). eauto.
Qed.

Lemma same_labels_nil labels : (∀ y, y ∈ labels ↔ y ∈ @nil Z) → labels = [].
Proof.
  destruct labels as [|a l]; [done|]. intros H.
  assert (a ∈ @nil Z) as Hin by (apply H; by left).
  by apply elem_of_nil in Hin.
Qed.

Lemma least_above_same l1 l2 x v :
  (∀ y, y ∈ l1 ↔ y ∈ l2) → least_above l1 x v → least_above l2 x v.
Proof.
  intros Hsame (Hin & Hlt & Hmin). split_and!; [by apply Hsame|done|].
  intros y Hy. apply Hmin. by apply Hsame.
Qed.

Lemma greatest_below_same l1 l2 x v :
  (∀ y, y ∈ l1 ↔ y ∈ l2) → greatest_below l1 x v → greatest_below l2 x v.
Proof.
  intros Hsame (Hin & Hlt & Hmax). split_and!; [by apply Hsame|done|].
  intros y Hy. apply Hmax. by apply Hsame.
Qed.

Lemma maximum_same l1 l2 v :
  (∀ y, y ∈ l1 ↔ y ∈ l2) → maximum l1 v → maximum l2 v.
Proof.
  intros Hsame [Hin Hmax]. split; [by apply Hsame|].
  intros y Hy. apply Hmax. by apply Hsame.
Qed.

Lemma minimum_same l1 l2 v :
  (∀ y, y ∈ l1 ↔ y ∈ l2) → minimum l1 v → minimum l2 v.
Proof.
  intros Hsame [Hin Hmin]. split; [by apply Hsame|].
  intros y Hy. apply Hmin. by apply Hsame.
Qed.

Lemma adjacent_label_same l1 l2 x direction :
  (∀ y, y ∈ l1 ↔ y ∈ l2) →
  adjacent_label l1 x direction = adjacent_label l2 x direction.
Proof.
  intros Hsame. destruct l1 as [|a l1].
  { symmetry in Hsame. rewrite (same_labels_nil l2) by (intros y; apply Hsame).
    done. }
  destruct direction.
  - destruct (adjacent_label_next (a :: l1) x) as (v & -> & H); [done|].
    symmetry. destruct H as [[_ H]|[Hall H]].
    + by eapply adjacent_label_next_is, least_above_same.
    + apply adjacent_label_next_top; [by eapply maximum_same|].
      apply Hall. by destruct H.
  - destruct (adjacent_label_previous (a :: l1) x) as (v & -> & H); [done|].
    symmetry. destruct H as [[_ H]|[Hall H]].
    + by eapply adjacent_label_previous_is, greatest_below_same.
    + apply adjacent_label_previous_bottom; [by eapply minimum_same|].
      apply Hall. by destruct H.
Qed.

(** A step forward that moved can be taken back, and the other way round. *)
Lemma adjacent_label_next_back labels x v :
  x ∈ labels → adjacent_label labels x true = Ok v → x < v →
  adjacent_label labels v false = Ok x.
Proof.
  intros Hx Hv Hlt.
  destruct (adjacent_label_next labels x) as (w & Hw & H).
  { intros ->. by apply elem_of_nil in Hx. }
  rewrite Hv in Hw. injection Hw as <-.
  destruct H as [[_ (Hin & _ & Hmin)]|[Hall [Hin _]]].
  - apply adjacent_label_previous_is. split_and!; [done..|].
    intros y Hy Hyv. destruct (Z.le_gt_cases y x) as [|Hgt]; [done|].
    apply Hmin in Hy; lia.
  - apply Hall in Hin. lia.
Qed.

Lemma adjacent_label_previous_forth labels x v :
  x ∈ labels → adjacent_label labels x false = Ok v → v < x →
  adjacent_label labels v true = Ok x.
Proof.
  intros Hx Hv Hlt.
  destruct (adjacent_label_previous labels x) as (w & Hw & H).
  { intros ->. by apply elem_of_nil in Hx. }
  rewrite Hv in Hw. injection Hw as <-.
  destruct H as [[_ (Hin & _ & Hmax)]|[Hall [Hin _]]].
  - apply adjacent_label_next_is. split_and!; [done..|].
    intros y Hy Hyv. destruct (Z.le_gt_cases x y) as [|Hgt]; [done|].
    apply Hmax in Hy; lia.
  - apply Hall in Hin. lia.
Qed.

Lemma adjacent_label_next_ge labels x v :
  x ∈ labels → adjacent_label labels x true = Ok v →
  x ≤ v ∧ (v = x ↔ maximum labels x).
Proof.
  intros Hx Hv.
  destruct (adjacent_label_next labels x) as (w & Hw & H).
  { intros ->. by apply elem_of_nil in Hx. }
  rewrite Hv in Hw. injection Hw as <-.
  destruct H as [[_ (Hin & Hlt & _)]|[Hall [Hin Hmax]]].
  - split; [lia|]. split; [lia|]. intros [_ Hmax]. apply Hmax in Hin. lia.
  - pose proof (Hall _ Hin). pose proof (Hmax _ Hx).
    split; [lia|]. split; [|lia]. intros ->. by split.
Qed.

Lemma adjacent_label_previous_le labels x v :
  x ∈ labels → adjacent_label labels x false = Ok v →
  v ≤ x ∧ (v = x ↔ minimum labels x).
Proof.
  intros Hx Hv.
  destruct (adjacent_label_previous labels x) as (w & Hw & H).
  { intros ->. by apply elem_of_nil in Hx. }
  rewrite Hv in Hw. injection Hw as <-.
  destruct H as [[_ (Hin & Hlt & _)]|[Hall [Hin Hmin]]].
  - split; [lia|]. split; [lia|]. intros [_ Hmin]. apply Hmin in Hin. lia.
  - pose proof (Hall _ Hin). pose proof (Hmin _ Hx).
    split; [lia|]. split; [|lia]. intros ->. by split.
Qed.
End resolver.

(** X1: [adjacent_label] either returns one of the given labels or raises
    [IndexError], and it raises exactly when the list of labels is empty. *)
Theorem adjacent_label_outcome (labels : list Z) (x : Z) (direction : bool) :
  match adjacent_label labels x direction with
  | Ok v => v ∈ labels
  | Raise e => e = IndexError ∧ labels = []
  end.
Proof.
  destruct labels as [|a l].
  - by rewrite adjacent_label_empty.
  - destruct (adjacent_label_Ok (a :: l) x direction) as [v Hv]; [done|].
    rewrite Hv. by eapply adjacent_label_elem_of.
Qed.

(** X2: the answer of [adjacent_label] depends on the labels as a set only:
    neither their order nor repetitions matter. *)
Theorem adjacent_label_order_irrelevant (l1 l2 : list Z) (x : Z)
    (direction : bool) :
  (∀ y, y ∈ l1 ↔ y ∈ l2) →
  adjacent_label l1 x direction = adjacent_label l2 x direction.
Proof. apply adjacent_label_same. Qed.

Lemma adjacent_label_order_irrelevant_witness :
  (∀ y, y ∈ [50; 10; 30] ↔ y ∈ [10; 30; 30; 50; 10]) ∧
  adjacent_label [50; 10; 30] 20 true
  = adjacent_label [10; 30; 30; 50; 10] 20 true.
Proof.
  assert (∀ y, y ∈ [50; 10; 30] ↔ y ∈ [10; 30; 30; 50; 10]) as H.
  { intros y. rewrite !elem_of_cons, !elem_of_nil. tauto. }
  split; [exact H|].
  exact (adjacent_label_order_irrelevant _ _ 20 true H).
Defined.

(** X3: from a reference that is itself a label, a step that moved is undone
    by the step in the other direction: next then previous, and previous
    then next, come back to the reference. *)
Theorem adjacent_label_there_and_back (labels : list Z) (x v : Z) :
  x ∈ labels →
  (adjacent_label labels x true = Ok v → x < v →
   adjacent_label labels v false = Ok x) ∧
  (adjacent_label labels x false = Ok v → v < x →
   adjacent_label labels v true = Ok x).
Proof.
  intros Hx. split.
  - by apply adjacent_label_next_back.
  - by apply adjacent_label_previous_forth.
Qed.

Lemma adjacent_label_there_and_back_witness :
  30 ∈ [50; 10; 30] ∧ adjacent_label [50; 10; 30] 30 true = Ok 50 ∧
  adjacent_label [50; 10; 30] 50 false = Ok 30.
Proof.
  assert (30 ∈ [50; 10; 30]) as H by (rewrite !elem_of_cons; tauto).
  split; [exact H|]. split; [reflexivity|].
  apply (proj1 (adjacent_label_there_and_back [50; 10; 30] 30 50 H));
    [reflexivity|lia].
Defined.

(** X4: from a reference that is itself a label, "next" never goes down and
    stays put only on the maximum; "previous" never goes up and stays put
    only on the minimum. *)
Theorem adjacent_label_moves_outward (labels : list Z) (x v : Z) :
  x ∈ labels →
  (adjacent_label labels x true = Ok v →
   x ≤ v ∧ (v = x ↔ maximum labels x)) ∧
  (adjacent_label labels x false = Ok v →
   v ≤ x ∧ (v = x ↔ minimum labels x)).
Proof.
  intros Hx. split.
  - by apply adjacent_label_next_ge.
  - by apply adjacent_label_previous_le.
Qed.

Lemma adjacent_label_moves_outward_witness :
  50 ∈ [50; 10; 30] ∧ adjacent_label [50; 10; 30] 50 true = Ok 50 ∧
  maximum [50; 10; 30] 50.
Proof.
  assert (50 ∈ [50; 10; 30]) as H by (rewrite !elem_of_cons; tauto).
  split; [exact H|]. split; [reflexivity|].
  destruct (proj1 (adjacent_label_moves_outward [50; 10; 30] 50 50 H)
              eq_refl) as [_ Hmax].
  by apply Hmax.
Defined.

(** ** The two layers below the step *)

Lemma from_top_below labels step :
  (∃ y, y ∈ labels ∧ y < step) →
  ∃ s, greatest_below labels step s ∧
       ((∃ t, greatest_below labels s t ∧
              from_top labels step = Ok (Some s, Some t)) ∨
        (minimum labels s ∧ from_top labels step = Ok (Some s, None))).
Proof.
  intros (y & Hy & Hlt).
  assert (labels ≠ []) as Hne by (intros ->; by apply elem_of_nil in Hy).
  unfold from_top.
  destruct (adjacent_label_previous labels step Hne) as (s & -> & Hs).
  destruct Hs as [[_ Hs]|[Hall _]]; [|apply Hall in Hy; lia].
  exists s. split; [done|].
  assert ((s =? step) = false) as ->.
  { apply Z.eqb_neq. destruct Hs as (_ & ? & _). lia. }
  destruct (adjacent_label_previous labels s Hne) as (t & -> & Ht).
  destruct Ht as [[_ Ht]|[Hall Ht]].
  - left. exists t. split; [done|].
    assert ((t =? s) = false) as ->; [|done].
    apply Z.eqb_neq. destruct Ht as (_ & ? & _). lia.
  - right. assert (t = s) as ->.
    { destruct Ht as [Hin Hmin], Hs as (Hsin & _).
      apply Hall in Hin. apply Hmin in Hsin. lia. }
    split; [done|]. by rewrite Z.eqb_refl.
Qed.

Lemma from_top_bottom labels step :
  labels ≠ [] → (∀ y, y ∈ labels → step ≤ y) →
  ∃ lo, minimum labels lo ∧
        from_top labels step
        = Ok (if lo =? step then None else Some lo, None).
Proof.
  intros Hne Hall. unfold from_top.
  destruct (adjacent_label_previous labels step Hne) as (lo & -> & Hlo).
  destruct Hlo as [[(y & Hy & Hlt) _]|[_ Hlo]]; [apply Hall in Hy; lia|].
  exists lo. split; [done|].
  rewrite (adjacent_label_previous_bottom labels lo lo) by (done || lia).
  by rewrite Z.eqb_refl.
Qed.

(** X5: what [update_visibility] takes for the two layers below the step.
    With a label below the step, second-from-top is the greatest label below
    the step and third-from-top the greatest label below that one, if any.
    With no label below the step there is no third-from-top, and
    second-from-top is none only if the step is the smallest label: for a
    step below every label it is that smallest label, which lies above the
    step. *)
Theorem from_top_cases (labels : list Z) (step : Z) :
  labels ≠ [] →
  ((∃ y, y ∈ labels ∧ y < step) →
   ∃ s, greatest_below labels step s ∧
        ((∃ t, greatest_below labels s t ∧
               from_top labels step = Ok (Some s, Some t)) ∨
         (minimum labels s ∧ from_top labels step = Ok (Some s, None)))) ∧
  ((∀ y, y ∈ labels → step ≤ y) →
   ∃ lo, minimum labels lo ∧
         from_top labels step
         = Ok (if lo =? step then None else Some lo, None)).
Proof.
  intros Hne. split; [apply from_top_below|by apply from_top_bottom].
Qed.

Lemma from_top_cases_witness :
  [50; 10; 30] ≠ [] ∧ (∀ y, y ∈ [50; 10; 30] → 5 ≤ y) ∧
  from_top [50; 10; 30] 5 = Ok (Some 10, None).
Proof.
  assert (∀ y, y ∈ [50; 10; 30] → 5 ≤ y) as Hall.
  { intros y. rewrite !elem_of_cons, elem_of_nil. lia. }
  split; [done|]. split; [exact Hall|].
  destruct (proj2 (from_top_cases [50; 10; 30] 5 ltac:(done)) Hall)
    as (lo & _ & _).
  reflexivity.
Defined.

(** ** get_member_layer *)

Section members.
Lemma first_member_from prefix members k j :
  first_member prefix members k = Some j ↔
  (k ≤ j)%nat ∧
  ∃ m, members !! (j - k)%nat = Some m ∧ member_matches prefix m ∧
       ∀ j' m', (j' < j - k)%nat → members !! j' = Some m' →
                ¬ member_matches prefix m'.
Proof.
  unfold member_matches. revert k.
  induction members as [|a members IH]; intros k; simpl.
  - split; [done|]. by intros (_ & m & ? & _).
  - destruct (is_layer a && Py.startswith (name a) prefix) eqn:E.
    + split.
      * intros [= <-]. rewrite Nat.sub_diag. split; [lia|].
        exists a. apply andb_true_iff in E as [??].
        split_and!; [done..|]. lia.
      * intros (Hle & m & Hm & _ & Hfirst). f_equal.
        destruct (j - k)%nat as [|d] eqn:Hd; [lia|].
        destruct (Hfirst 0%nat a); [lia|done|].
        by apply andb_true_iff in E.
    + rewrite IH. split.
      * intros (Hle & m & Hm & [Hl Hp] & Hfirst). split; [lia|]. exists m.
        replace (j - k)%nat with (S (j - S k)) by lia.
        split_and!; [done..|]. intros [|j'] m' Hj'; simpl.
        -- intros [= <-] [Hl' Hp']. rewrite Hl', Hp' in E. done.
        -- apply Hfirst. lia.
      * intros (Hle & m & Hm & [Hl Hp] & Hfirst).
        destruct (j - k)%nat as [|d] eqn:Hd; simpl in Hm.
        -- injection Hm as <-. rewrite Hl, Hp in E. done.
        -- split; [lia|]. exists m. replace (j - S k)%nat with d by lia.
           split_and!; [done..|]. intros j' m' Hj' Hm'.
           apply (Hfirst (S j')); [lia|done].
Qed.

Lemma first_member_None prefix members k :
  first_member prefix members k = None ↔
  ∀ j m, members !! j = Some m → ¬ member_matches prefix m.
Proof.
  unfold member_matches. revert k.
  induction members as [|a members IH]; intros k; simpl.
  - split; [|done]. by intros _ j m.
  - destruct (is_layer a && Py.startswith (name a) prefix) eqn:E.
    + split; [done|]. intros H. destruct (H 0%nat a); [done|].
      by apply andb_true_iff in E.
    + rewrite IH. split.
      * intros H [|j] m; simpl; [|by apply H].
        intros [= <-] [Hl Hp]. rewrite Hl, Hp in E. done.
      * intros H j m Hm. by apply (H (S j)).
Qed.

Lemma hint_is_not_color s :
  Py.startswith s "hint" = true → Py.startswith s "color" = true → False.
Proof.
  destruct s as [|a s]; [done|]. simpl.
  destruct (Ascii.eqb_spec a "h") as [->|]; [|done]. done.
Qed.
End members.

(** X6: [get_member_layer] returns the first child of the group that is a
    layer and whose name starts with the prefix -- no earlier child
    qualifies -- and returns [None] exactly when no child qualifies. *)
Theorem get_member_layer_first_match (group_layer : nat) (prefix : string)
    (image : gimp) (g : item) :
  layers image !! group_layer = Some g →
  match get_member_layer group_layer prefix image with
  | Some h =>
      ∃ j m, h = Child group_layer j ∧ children g !! j = Some m ∧
             member_matches prefix m ∧
             ∀ j' m', (j' < j)%nat → children g !! j' = Some m' →
                      ¬ member_matches prefix m'
  | None => ∀ j m, children g !! j = Some m → ¬ member_matches prefix m
  end.
Proof.
  intros Hg. unfold get_member_layer. rewrite Hg.
  destruct (first_member prefix (children g) 0) as [j|] eqn:E; simpl.
  - apply first_member_from in E as (_ & m & Hm & Hq & Hfirst).
    rewrite Nat.sub_0_r in Hm, Hfirst. by exists j, m.
  - exact (proj1 (first_member_None _ _ _) E).
Qed.

Lemma get_member_layer_first_match_witness :
  layers sample !! 0%nat
  = Some (group_layer "#50# roof" false 40 true None) ∧
  get_member_layer 0 "color" sample = Some (Child 0 2).
Proof.
  split; [reflexivity|].
  pose proof (get_member_layer_first_match 0 "color" sample _ eq_refl) as H.
  reflexivity.
Defined.

(** X7: the hint member and the colour member of a group are never the same
    layer, so showing the hint and filling the colour cannot land on one
    layer. *)
Theorem hint_and_color_members_differ (group_layer : nat) (image : gimp)
    (hint_layer color_layer : handle) :
  get_member_layer group_layer "hint" image = Some hint_layer →
  get_member_layer group_layer "color" image = Some color_layer →
  hint_layer ≠ color_layer.
Proof.
  unfold get_member_layer.
  destruct (layers image !! group_layer) as [g|]; [|done].
  destruct (first_member "hint" (children g) 0) as [jh|] eqn:Hh; [|done].
  destruct (first_member "color" (children g) 0) as [jc|] eqn:Hc; [|done].
  simpl. intros [= <-] [= <-] [= ->].
  apply first_member_from in Hh as (_ & mh & Hmh & [_ Hph] & _).
  apply first_member_from in Hc as (_ & mc & Hmc & [_ Hpc] & _).
  rewrite Hmh in Hmc. injection Hmc as <-.
  by apply (hint_is_not_color (name mh)).
Qed.

Lemma hint_and_color_members_differ_witness :
  get_member_layer 0 "hint" sample = Some (Child 0 1) ∧
  get_member_layer 0 "color" sample = Some (Child 0 2) ∧
  Child 0 1 ≠ Child 0 2.
Proof.
  split; [reflexivity|]. split; [reflexivity|].
  exact (hint_and_color_members_differ 0 sample _ _ eq_refl eq_refl).
Defined.

(** ** extract_relevant_groups *)

Section label_map.
Lemma extract_last_label_of image label ID :
  extract_relevant_groups image !! label = Some ID ↔
  (∃ layer, layers image !! ID = Some layer ∧ label_of layer = Some label) ∧
  ∀ ID' layer', (ID < ID')%nat → layers image !! ID' = Some layer' →
                label_of layer' ≠ Some label.
Proof.
  destruct image as [ls fg]. simpl. revert ID.
  induction ls as [|x ls IH] using rev_ind; intros ID.
  - split; [done|]. by intros [(layer & ? & _) _].
  - rewrite extract_snoc, extract_layer_label_of.
    destruct (decide (label_of x = Some label)) as [Hx|Hx].
    + rewrite Hx, lookup_insert_eq. split.
      * intros [= <-]. split.
        -- exists x. by rewrite list_lookup_middle.
        -- intros ID' layer' Hlt Hl. apply lookup_lt_Some in Hl.
           rewrite length_app in Hl. simpl in Hl. lia.
      * intros [(layer & Hl & Hlabel) Hlast]. f_equal.
        apply lookup_lt_Some in Hl as Hlt. rewrite length_app in Hlt.
        simpl in Hlt. destruct (decide (ID = length ls)) as [|Hne]; [done|].
        destruct (Hlast (length ls) x); [lia|by rewrite list_lookup_middle|].
        done.
    + assert (match label_of x with
              | Some label0 =>
                  <[label0:=length ls]>
                    (extract_relevant_groups (Gimp ls fg))
              | None => extract_relevant_groups (Gimp ls fg)
              end !! label = extract_relevant_groups (Gimp ls fg) !! label)
        as ->.
      { destruct (label_of x) as [l'|]; [|done].
        rewrite lookup_insert_ne; [done|]. congruence. }
      rewrite IH. split.
      * intros [(layer & Hl & Hlabel) Hlast]. split.
        -- exists layer. split; [|done]. by apply lookup_app_l_Some.
        -- intros ID' layer' Hlt Hl'.
           destruct (decide (ID' = length ls)) as [->|Hne].
           ++ rewrite list_lookup_middle in Hl' by done. by injection Hl' as <-.
           ++ apply lookup_lt_Some in Hl' as Hlt'. rewrite length_app in Hlt'.
              simpl in Hlt'. rewrite lookup_app_l in Hl' by lia.
              by apply (Hlast ID').
      * intros [(layer & Hl & Hlabel) Hlast].
        apply lookup_lt_Some in Hl as Hlt. rewrite length_app in Hlt.
        simpl in Hlt.
        destruct (decide (ID = length ls)) as [->|Hne].
        { rewrite list_lookup_middle in Hl by done. injection Hl as <-. done. }
        rewrite lookup_app_l in Hl by lia. split; [by exists layer|].
        intros ID' layer' Hlt' Hl'. apply (Hlast ID'); [done|].
        by apply lookup_app_l_Some.
Qed.

Lemma extract_None_label_of image label :
  extract_relevant_groups image !! label = None ↔
  ∀ ID layer, layers image !! ID = Some layer → label_of layer ≠ Some label.
Proof.
  split.
  - intros Hnone ID layer Hl Hlabel.
    destruct (extract_is_Some image ID layer label Hl Hlabel) as [? H].
    congruence.
  - intros Hno. destruct (extract_relevant_groups image !! label) as [ID|] eqn:E;
      [|done].
    apply extract_lookup in E as (layer & Hl & Hlabel).
    by destruct (Hno ID layer Hl).
Qed.
End label_map.

(** X8: when several step groups carry the same label, the last one in
    [image.layers] wins: a label maps to [ID] exactly when the layer at [ID]
    is a step group with that label and no later layer is; and a label is
    absent exactly when no top-level layer is a step group with it. *)
Theorem extract_last_wins (image : gimp) (label : Z) :
  (∀ ID,
     extract_relevant_groups image !! label = Some ID ↔
     (∃ layer, layers image !! ID = Some layer ∧ step_group layer label) ∧
     ∀ ID' layer', (ID < ID')%nat → layers image !! ID' = Some layer' →
                   ¬ step_group layer' label) ∧
  (extract_relevant_groups image !! label = None ↔
   ∀ ID layer, layers image !! ID = Some layer → ¬ step_group layer label).
Proof.
  split.
  - intros ID. rewrite extract_last_label_of. split.
    + intros [(layer & Hl & Hlabel) Hlast]. split.
      * exists layer. split; [done|]. by apply label_of_step_group.
      * intros ID' layer' Hlt Hl' Hs%label_of_step_group.
        by apply (Hlast ID' layer').
    + intros [(layer & Hl & Hs) Hlast]. split.
      * exists layer. split; [done|]. by apply label_of_step_group.
      * intros ID' layer' Hlt Hl' Hlabel%label_of_step_group.
        by apply (Hlast ID' layer').
  - rewrite extract_None_label_of. split.
    + intros H ID layer Hl Hs%label_of_step_group. by apply (H ID layer).
    + intros H ID layer Hl Hlabel%label_of_step_group. by apply (H ID layer).
Qed.

(** X9: the label map never sends two labels to one group, and every [ID]
    in it is a top-level layer of the image that is a group. *)
Theorem extract_distinct_live_groups (image : gimp) :
  distinct_groups (extract_relevant_groups image) ∧
  live (extract_relevant_groups image) image ∧
  ∀ label ID layer,
    extract_relevant_groups image !! label = Some ID →
    layers image !! ID = Some layer → is_group layer = true.
Proof.
  split_and!.
  - intros ???. apply extract_inj.
  - apply extract_live.
  - intros label ID layer (layer' & Hl & Hlabel)%extract_lookup Hl'.
    rewrite Hl in Hl'. injection Hl' as <-.
    apply label_of_step_group in Hlabel. by destruct Hlabel.
Qed.

Lemma label_of_naming a b : naming a = naming b → label_of a = label_of b.
Proof. unfold naming, label_of. by intros [= -> ->]. Qed.

Lemma extract_naming a b :
  naming <$> layers a = naming <$> layers b →
  extract_relevant_groups a = extract_relevant_groups b.
Proof.
  destruct a as [la fa], b as [lb fb]. simpl. revert lb.
  induction la as [|x la IH] using rev_ind; intros lb Hsame.
  - symmetry in Hsame. apply fmap_nil_inv in Hsame as ->. done.
  - rewrite fmap_app in Hsame. symmetry in Hsame.
    apply fmap_app_inv in Hsame as (lb' & ys & Hlb' & Hys & ->).
    symmetry in Hys. apply fmap_cons_inv in Hys as (y & ys' & Hy & Hys' & ->).
    symmetry in Hys'. apply fmap_nil_inv in Hys' as ->.
    rewrite !extract_snoc, !extract_layer_label_of.
    rewrite (IH lb') by done.
    rewrite (label_of_naming x y) by done.
    assert (length la = length lb') as ->; [|done].
    by rewrite <- (length_fmap naming la), Hlb', length_fmap.
Qed.

(** X10: the label map is read off the names and the group flags of the
    top-level layers alone: images that agree on those have the same map,
    whatever the other flags, the visibility, opacity, text, fill or members
    of their layers, and whatever the foreground colour. *)
Theorem extract_reads_names_and_group_flags (a b : gimp) :
  naming <$> layers a = naming <$> layers b →
  extract_relevant_groups a = extract_relevant_groups b.
Proof. apply extract_naming. Qed.

Lemma extract_reads_names_and_group_flags_witness :
  naming <$> layers sample = naming <$> layers sample_plain_step ∧
  is_text_layer <$> layers sample ≠ is_text_layer <$> layers sample_plain_step ∧
  extract_relevant_groups sample = extract_relevant_groups sample_plain_step.
Proof.
  assert (naming <$> layers sample = naming <$> layers sample_plain_step)
    as H by reflexivity.
  split; [exact H|]. split; [discriminate|].
  exact (extract_reads_names_and_group_flags _ _ H).
Defined.

Lemma extract_distinct_live_groups_witness :
  extract_relevant_groups sample !! 30 = Some 4%nat ∧
  is_group (group_layer "#30# walls" true 100 true (Some "#FF0000")) = true.
Proof.
  split; [reflexivity|].
  destruct (extract_distinct_live_groups sample) as (_ & _ & H).
  exact (H 30 4%nat _ eq_refl eq_refl).
Defined.

(** ** update_visibility *)

Section updater.
Lemma live_iff_entries (groups : gmap Z nat) image :
  live groups image ↔
  ∀ label ID, (label, ID) ∈ map_to_list groups →
              is_Some (layers image !! ID).
Proof.
  split.
  - apply live_entries.
  - intros H label ID Hl. apply (H label). by apply elem_of_map_to_list.
Qed.

Lemma skeleton_with_visible b m : skeleton (with_visible b m) = skeleton m.
Proof. by destruct m. Qed.
Lemma skeleton_with_opacity o m : skeleton (with_opacity o m) = skeleton m.
Proof. by destruct m. Qed.
Lemma skeleton_with_fill c m : skeleton (with_fill c m) = skeleton m.
Proof. by destruct m. Qed.

Lemma skeleton_alter (f : item → item) (j : nat) (ms : list item) :
  (∀ m, skeleton (f m) = skeleton m) →
  skeleton <$> alter f j ms = skeleton <$> ms.
Proof.
  intros Hf. rewrite (list_fmap_alter _ _ id).
  - by apply list_alter_id.
  - apply Forall_forall. intros m _. apply Hf.
Qed.

Lemma skeleton_with_children (f : item → item) (j : nat) g :
  (∀ m, skeleton (f m) = skeleton m) →
  skeleton (with_children (alter f j) g) = skeleton g.
Proof.
  intros Hf. destruct g as [n ig il it v o t c ms]. simpl. f_equal.
  by apply skeleton_alter.
Qed.

Lemma skeleton_on_member prefix (f : item → item) g :
  (∀ m, skeleton (f m) = skeleton m) →
  skeleton (on_member prefix f g) = skeleton g.
Proof.
  intros Hf. unfold on_member.
  destruct (first_member _ _ _); [|done]. by apply skeleton_with_children.
Qed.

Lemma skeleton_rule step second third label g :
  skeleton (group_rule step second third label g) = skeleton g.
Proof.
  unfold group_rule. destruct (label >? step).
  - apply skeleton_with_visible.
  - rewrite !skeleton_on_member
      by (intros; apply skeleton_with_fill || apply skeleton_with_visible).
    by rewrite skeleton_with_opacity, skeleton_with_visible.
Qed.

Lemma skeleton_apply_rule step second third image entry :
  skeleton <$> layers (apply_rule step second third image entry)
  = skeleton <$> layers image.
Proof.
  destruct entry as [label ID]. simpl. apply skeleton_alter.
  intros m. apply skeleton_rule.
Qed.

Lemma for_each_skeleton labels step second third entries image r image' :
  from_top labels step = Ok (second, third) →
  for_each entries (update_group step second third) image = (r, image') →
  skeleton <$> layers image' = skeleton <$> layers image.
Proof.
  intros Hft. revert image.
  induction entries as [|[label ID] entries IH]; intros image.
  - by intros [= _ <-].
  - cbn [for_each]. unfold bind at 1.
    destruct (layers image !! ID) as [g|] eqn:Hg.
    + rewrite (update_group_rule _ _ _ _ _ _ _ _ Hft Hg).
      intros ->%IH. apply skeleton_apply_rule.
    + rewrite update_group_dangling by done. by intros [= _ <-].
Qed.

Lemma for_each_foreground labels step second third entries ls fg1 fg2 :
  from_top labels step = Ok (second, third) →
  (for_each entries (update_group step second third) (Gimp ls fg1)).1
  = (for_each entries (update_group step second third) (Gimp ls fg2)).1 ∧
  layers (for_each entries (update_group step second third) (Gimp ls fg1)).2
  = layers
      (for_each entries (update_group step second third) (Gimp ls fg2)).2.
Proof.
  intros Hft. revert ls fg1 fg2.
  induction entries as [|[label ID] entries IH]; intros ls fg1 fg2; [done|].
  cbn [for_each]. unfold bind.
  destruct (ls !! ID) as [g|] eqn:Hg.
  - rewrite !(update_group_rule _ _ _ labels label ID _ g Hft) by done.
    cbn [apply_rule layers foreground]. apply IH.
  - rewrite !update_group_dangling by done. done.
Qed.

(** Outside the hint and the colour member the rule leaves the members of a
    group alone. *)
Lemma group_rule_other_members step second third label g (j : nat) :
  first_member "hint" (children g) 0 ≠ Some j →
  first_member "color" (children g) 0 ≠ Some j →
  children (group_rule step second third label g) !! j = children g !! j.
Proof.
  intros Hh Hc. unfold group_rule. destruct (label >? step); [done|].
  unfold on_member. simpl.
  destruct (first_member "hint" (children g) 0) as [jh|] eqn:Eh; simpl;
    rewrite ?first_member_alter by done;
    (destruct (first_member "color" (children g) 0) as [jc|] eqn:Ec; simpl);
    rewrite ?list_lookup_alter_ne by congruence; done.
Qed.
End updater.

(** X11: [update_visibility] raises [IndexError] on an empty label map and
    leaves the image untouched; on a non-empty map it succeeds exactly when
    every [ID] of the map is a live item, and raises [AttributeError]
    otherwise. *)
Theorem update_visibility_outcome (groups : gmap Z nat) (step : Z)
    (image : gimp) :
  (groups = ∅ →
   update_visibility groups step image = (Raise IndexError, image)) ∧
  (groups ≠ ∅ → live groups image →
   ∃ image', update_visibility groups step image = (Ok tt, image')) ∧
  (groups ≠ ∅ → ¬ live groups image →
   ∃ image',
     update_visibility groups step image = (Raise AttributeError, image')).
Proof.
  split_and!.
  - by intros ->.
  - intros Hne Hlive.
    destruct (update_visibility_fold groups step image Hne Hlive)
      as (? & ? & _ & ?). eauto.
  - intros Hne Hdead.
    destruct (from_top_ordered (keys groups) step (keys_nonempty _ Hne))
      as (second & third & Hft & _).
    unfold update_visibility, bind, lift. rewrite Hft. simpl.
    destruct (for_each _ _ image) as [r image'] eqn:Hrun.
    apply (for_each_update_group_inv _ _ _ _ _ _ _ _ Hft) in Hrun
      as [(_ & _ & Hlive)| ->]; [|by eauto].
    destruct Hdead. by apply live_iff_entries.
Qed.

Lemma update_visibility_outcome_witness :
  ({[7 := 9%nat]} : gmap Z nat) ≠ ∅ ∧
  ¬ live {[7 := 9%nat]} sample ∧
  update_visibility {[7 := 9%nat]} 7 sample = (Raise AttributeError, sample).
Proof.
  assert (({[7 := 9%nat]} : gmap Z nat) ≠ ∅) as Hne.
  { intros H. apply (f_equal (λ m : gmap Z nat, m !! 7)) in H.
    vm_compute in H. discriminate H. }
  assert (¬ live {[7 := 9%nat]} sample) as Hdead.
  { intros H. destruct (H 7 9%nat) as [? Hl]; [reflexivity|].
    vm_compute in Hl. discriminate Hl. }
  split; [exact Hne|]. split; [exact Hdead|].
  destruct (update_visibility_outcome {[7 := 9%nat]} 7 sample)
    as (_ & _ & H).
  destruct (H Hne Hdead) as [image' Himage']. reflexivity.
Defined.

(** X12: whatever its outcome, [update_visibility] changes nothing but
    visibility, opacity and fill: the number of layers, their names, kinds,
    texts and members, all the way down, are as before. *)
Theorem update_visibility_keeps_structure (groups : gmap Z nat) (step : Z)
    (image : gimp) (r : result unit) (image' : gimp) :
  update_visibility groups step image = (r, image') →
  same_document image' image ∧
  length (layers image') = length (layers image).
Proof.
  intros Hupd.
  assert (same_document image' image) as Hsame.
  { unfold update_visibility, bind, lift in Hupd.
    destruct (from_top (keys groups) step) as [[second third]|e] eqn:Hft.
    - simpl in Hupd. by eapply for_each_skeleton.
    - by injection Hupd as _ <-. }
  split; [done|].
  by rewrite <- (length_fmap skeleton (layers image')), Hsame, length_fmap.
Qed.

Lemma update_visibility_keeps_structure_witness :
  update_visibility (extract_relevant_groups sample) 50 sample
  = update_visibility (extract_relevant_groups sample) 50 sample ∧
  same_document
    (update_visibility (extract_relevant_groups sample) 50 sample).2 sample.
Proof.
  split; [reflexivity|].
  destruct (update_visibility (extract_relevant_groups sample) 50 sample)
    as [r image'] eqn:E.
  exact (proj1 (update_visibility_keeps_structure _ _ _ _ _ E)).
Defined.

(** X13: the foreground colour the context happens to hold when
    [update_visibility] starts has no influence on its outcome or on any
    layer: every fill uses a colour set just before it. *)
Theorem update_visibility_ignores_foreground (groups : gmap Z nat) (step : Z)
    (ls : list item) (fg1 fg2 : string) :
  (update_visibility groups step (Gimp ls fg1)).1
  = (update_visibility groups step (Gimp ls fg2)).1 ∧
  layers (update_visibility groups step (Gimp ls fg1)).2
  = layers (update_visibility groups step (Gimp ls fg2)).2.
Proof.
  unfold update_visibility, bind, lift.
  destruct (from_top (keys groups) step) as [[second third]|e] eqn:Hft;
    [|done].
  simpl. by eapply for_each_foreground.
Qed.

(** X14: within a group of the label map, [update_visibility] leaves every
    member other than the hint member and the colour member exactly as it
    was. *)
Theorem update_visibility_spares_other_members (groups : gmap Z nat)
    (step : Z) (image image' : gimp) (label : Z) (ID j : nat) (g g' : item) :
  live groups image → distinct_groups groups →
  update_visibility groups step image = (Ok tt, image') →
  groups !! label = Some ID →
  layers image !! ID = Some g → layers image' !! ID = Some g' →
  get_member_layer ID "hint" image ≠ Some (Child ID j) →
  get_member_layer ID "color" image ≠ Some (Child ID j) →
  children g' !! j = children g !! j.
Proof.
  intros Hlive Hinj Hupd Hlabel Hg Hg' Hh Hc.
  assert (groups ≠ ∅) as Hne by (intros ->; done).
  destruct (update_visibility_pointwise groups step image Hne Hlive Hinj)
    as (second & third & image'' & _ & Hupd' & _ & Hin & _).
  rewrite Hupd in Hupd'. injection Hupd' as <-.
  rewrite (Hin label ID Hlabel), Hg in Hg'. injection Hg' as <-.
  unfold get_member_layer in Hh, Hc. rewrite Hg in Hh, Hc.
  apply group_rule_other_members.
  - intros E. rewrite E in Hh. by apply Hh.
  - intros E. rewrite E in Hc. by apply Hc.
Qed.

Lemma update_visibility_spares_other_members_witness :
  ∃ image' g',
    update_visibility (extract_relevant_groups sample) 50 sample
    = (Ok tt, image') ∧
    layers image' !! 0%nat = Some g' ∧
    children g' !! 0%nat
    = children (group_layer "#50# roof" false 40 true None) !! 0%nat.
Proof.
  destruct (update_visibility (extract_relevant_groups sample) 50 sample)
    as [r image'] eqn:E.
  assert (r = Ok tt) as -> by (vm_compute in E; by injection E as <- _).
  assert (layers image' !! 0%nat
          = Some (group_rule 50 (Some 30) (Some 10) 50
                    (group_layer "#50# roof" false 40 true None))) as Hg'.
  { vm_compute in E. injection E as <-. reflexivity. }
  eexists image', _. split; [reflexivity|]. split; [exact Hg'|].
  apply (update_visibility_spares_other_members
           (extract_relevant_groups sample) 50 sample image' 50 0 0
           (group_layer "#50# roof" false 40 true None) _
           (extract_live sample) (λ _ _ _, extract_inj sample _ _ _)
           E eq_refl eq_refl Hg'); done.
Defined.

(** ** update_step, increase_step, decrease_step *)

Section stepping.
Lemma update_step_cases direction image :
  (no_marker image ∧
   update_step direction image = (Raise missing_marker, image)) ∨
  (∃ ID layer, marker_at image ID layer ∧ Py.int (text layer) = None ∧
               update_step direction image = (Raise invalid_content, image)) ∨
  (∃ ID layer c, marker_at image ID layer ∧ Py.int (text layer) = Some c ∧
                 extract_relevant_groups image = ∅ ∧
                 update_step direction image = (Raise IndexError, image)) ∨
  (∃ ID layer c image',
     marker_at image ID layer ∧ Py.int (text layer) = Some c ∧
     extract_relevant_groups image ≠ ∅ ∧
     update_step direction image = (Ok tt, image')).
Proof.
  destruct (first_step_layer (enumerate (layers image)))
    as [[ID layer]|] eqn:Hfind.
  - apply first_step_layer_marker in Hfind as Hm. right.
    destruct (Py.int (text layer)) as [c|] eqn:Hint.
    + right. destruct (decide (extract_relevant_groups image = ∅)) as [He|Hne].
      * left. exists ID, layer, c. split_and!; [done..|].
        by eapply update_step_no_groups.
      * right.
        destruct (update_step_spec direction _ _ _ _ Hm Hint Hne)
          as (? & ? & ? & image' & _ & _ & Hstep & _).
        by exists ID, layer, c, image'.
    + left. exists ID, layer. split_and!; [done..|].
      unfold update_step, bind, gets. by rewrite Hfind, Hint.
  - left. apply first_step_layer_None in Hfind as Hno. split; [done|].
    unfold update_step, bind, gets. by rewrite Hfind.
Qed.

Lemma update_step_Ok_inv direction image r image' :
  update_step direction image = (r, image') → r = Ok tt →
  ∃ ID layer c, marker_at image ID layer ∧ Py.int (text layer) = Some c ∧
                extract_relevant_groups image ≠ ∅.
Proof.
  intros Hstep ->.
  destruct (update_step_cases direction image)
    as [[_ H]|[(? & ? & _ & _ & H)|[(? & ? & ? & _ & _ & _ & H)|H]]];
    try (rewrite Hstep in H; discriminate H).
  destruct H as (ID & layer & c & ? & ? & ? & ? & _). by exists ID, layer, c.
Qed.

Lemma marker_at_unique image ID1 layer1 ID2 layer2 :
  marker_at image ID1 layer1 → marker_at image ID2 layer2 →
  ID1 = ID2 ∧ layer1 = layer2.
Proof.
  intros (Hl1 & Ht1 & Hn1 & Hfirst1) (Hl2 & Ht2 & Hn2 & Hfirst2).
  assert (ID1 = ID2) as <-.
  { destruct (Nat.lt_trichotomy ID1 ID2) as [Hlt|[?|Hlt]]; [|done|].
    - by destruct (Hfirst2 ID1 layer1 Hlt Hl1).
    - by destruct (Hfirst1 ID2 layer2 Hlt Hl2). }
  split; [done|]. congruence.
Qed.

Lemma with_text_idemp t t' layer :
  with_text t (with_text t' layer) = with_text t layer.
Proof. by destruct layer. Qed.

Lemma set_text_same t ID image layer :
  layers image !! ID = Some layer → text layer = t →
  update (with_text t) (Top ID) image = image.
Proof.
  intros Hl <-. destruct image as [ls fg]. simpl in *. f_equal.
  rewrite (alter_lookup _ _ _ _ Hl). apply list_insert_id.
  rewrite Hl. f_equal. by destruct layer.
Qed.

Lemma keys_empty : keys ∅ = [].
Proof. unfold keys. by rewrite map_to_list_empty. Qed.

(** A step that lands where one more step in the same direction would stay:
    the second step changes nothing at all. *)
Lemma update_step_settles direction image ID layer c v :
  marker_at image ID layer → Py.int (text layer) = Some c →
  adjacent_label (keys (extract_relevant_groups image)) c direction = Ok v →
  adjacent_label (keys (extract_relevant_groups image)) v direction = Ok v →
  ∃ image',
    update_step direction image = (Ok tt, image') ∧
    marker_at image' ID (with_text (Py.str v) layer) ∧
    update_step direction image' = (Ok tt, image').
Proof.
  intros Hm Hint Hadj Hfix.
  assert (extract_relevant_groups image ≠ ∅) as Hne.
  { intros He. rewrite He, keys_empty, adjacent_label_empty in Hadj. done. }
  destruct (update_step_spec direction _ _ _ _ Hm Hint Hne)
    as (v' & second & third & image' & Hadj' & Hft & Hstep & Hext & Hm' & _).
  rewrite Hadj in Hadj'. injection Hadj' as <-.
  exists image'. split_and!; [done..|].
  (* the first step as a fold of the rule *)
  pose proof (update_step_unfold direction _ _ _ _ Hm Hint) as Hrun.
  rewrite Hadj, Hstep in Hrun.
  set (image_t := update (with_text (Py.str v)) (Top ID) image) in *.
  assert (extract_relevant_groups image_t = extract_relevant_groups image)
    as Hext_t by apply extract_outline, outline_set_text.
  destruct (update_visibility_fold (extract_relevant_groups image) v image_t
              Hne) as (s1 & t1 & Hft1 & Hfold1).
  { rewrite <- Hext_t. apply extract_live. }
  rewrite Hft in Hft1. injection Hft1 as <- <-.
  rewrite Hfold1 in Hrun. injection Hrun as Himage'.
  (* the second step *)
  assert (Py.int (text (with_text (Py.str v) layer)) = Some v) as Hint'
    by apply int_str.
  rewrite (update_step_unfold direction _ _ _ _ Hm' Hint'), Hext, Hfix.
  destruct Hm' as (Hl' & _).
  rewrite (set_text_same _ _ _ _ Hl') by done.
  destruct (update_visibility_fold (extract_relevant_groups image) v image'
              Hne) as (s2 & t2 & Hft2 & Hfold2).
  { rewrite <- Hext. apply extract_live. }
  rewrite Hft in Hft2. injection Hft2 as <- <-.
  rewrite Hfold2. f_equal.
  rewrite Himage'. apply foldl_apply_rule_idemp.
Qed.

Lemma increase_step_unfold image :
  increase_step image = update_step true image.
Proof.
  unfold increase_step, bind, gimp_displays_flush, ret.
  by destruct (update_step true image) as [[[]|e] image'].
Qed.

Lemma decrease_step_unfold image :
  decrease_step image = update_step false image.
Proof.
  unfold decrease_step, bind, gimp_displays_flush, ret.
  by destruct (update_step false image) as [[[]|e] image'].
Qed.
End stepping.

(** X15: [update_step] has four outcomes, tried in this order: no step
    marker, a marker that holds no integer, no step group ([IndexError] from
    the resolver), success.  Every failure leaves the image exactly as it
    was. *)
Theorem update_step_outcome (direction : bool) (image : gimp) :
  match update_step direction image with
  | (Ok _, _) =>
      ∃ ID layer c, marker_at image ID layer ∧
                    Py.int (text layer) = Some c ∧
                    extract_relevant_groups image ≠ ∅
  | (Raise e, image') =>
      image' = image ∧
      ((e = missing_marker ∧ no_marker image) ∨
       (e = invalid_content ∧
        ∃ ID layer, marker_at image ID layer ∧ Py.int (text layer) = None) ∨
       (e = IndexError ∧ extract_relevant_groups image = ∅ ∧
        ∃ ID layer c, marker_at image ID layer ∧
                      Py.int (text layer) = Some c))
  end.
Proof.
  destruct (update_step_cases direction image)
    as [[? ->]|[(ID & layer & ? & ? & ->)
               |[(ID & layer & c & ? & ? & ? & ->)
                |(ID & layer & c & image' & ? & ? & ? & ->)]]].
  - split; [done|]. by left.
  - split; [done|]. right. left. split; [done|]. by exists ID, layer.
  - split; [done|]. right. right. split_and!; [done..|]. by exists ID, layer, c.
  - by exists ID, layer, c.
Qed.

(** X16: once a step has succeeded, the next step, in either direction,
    succeeds too: the marker then holds an integer the controller wrote
    itself and the step groups are still there. *)
Theorem update_step_keeps_going (d1 d2 : bool) (image image' : gimp) :
  update_step d1 image = (Ok tt, image') →
  ∃ image'', update_step d2 image' = (Ok tt, image'').
Proof.
  intros Hstep.
  destruct (update_step_Ok_inv _ _ _ _ Hstep eq_refl)
    as (ID & layer & c & Hm & Hint & Hne).
  destruct (update_step_spec d1 _ _ _ _ Hm Hint Hne)
    as (v & ? & ? & image1 & _ & _ & Hstep1 & Hext & Hm1 & _).
  rewrite Hstep in Hstep1. injection Hstep1 as <-.
  assert (Py.int (text (with_text (Py.str v) layer)) = Some v) as Hint1
    by apply int_str.
  assert (extract_relevant_groups image' ≠ ∅) as Hne1 by by rewrite Hext.
  destruct (update_step_spec d2 _ _ _ _ Hm1 Hint1 Hne1)
    as (? & ? & ? & image'' & _ & _ & Hstep2 & _).
  by exists image''.
Qed.

Lemma update_step_keeps_going_witness :
  ∃ image' image'',
    update_step true sample = (Ok tt, image') ∧
    update_step true image' = (Ok tt, image'').
Proof.
  destruct (update_step true sample) as [r image'] eqn:E.
  assert (r = Ok tt) as -> by (vm_compute in E; by injection E as <- _).
  destruct (update_step_keeps_going true true sample image' E)
    as [image'' H].
  by exists image', image''.
Defined.

(** X17: at the end of the sequence a step saturates.  If the marker holds
    the greatest label or more, [increase_step] puts the greatest label in
    the marker, and a further [increase_step] changes nothing at all; the
    same holds for [decrease_step] and the smallest label. *)
Theorem step_saturates (image : gimp) (ID : nat) (layer : item) (c : Z) :
  marker_at image ID layer → Py.int (text layer) = Some c →
  (∀ hi, maximum (keys (extract_relevant_groups image)) hi → hi ≤ c →
     ∃ image', increase_step image = (Ok tt, image') ∧
               marker_at image' ID (with_text (Py.str hi) layer) ∧
               increase_step image' = (Ok tt, image')) ∧
  (∀ lo, minimum (keys (extract_relevant_groups image)) lo → c ≤ lo →
     ∃ image', decrease_step image = (Ok tt, image') ∧
               marker_at image' ID (with_text (Py.str lo) layer) ∧
               decrease_step image' = (Ok tt, image')).
Proof.
  intros Hm Hint. split.
  - intros hi Hhi Hle.
    destruct (update_step_settles true image ID layer c hi Hm Hint)
      as (image' & H1 & Hm' & H2).
    { by apply adjacent_label_next_top. }
    { apply adjacent_label_next_top; [done|lia]. }
    exists image'. by rewrite !increase_step_unfold.
  - intros lo Hlo Hle.
    destruct (update_step_settles false image ID layer c lo Hm Hint)
      as (image' & H1 & Hm' & H2).
    { by apply adjacent_label_previous_bottom. }
    { apply adjacent_label_previous_bottom; [done|lia]. }
    exists image'. by rewrite !decrease_step_unfold.
Qed.

Lemma sample_past_end_marker :
  marker_at sample_past_end 1 (text_layer "step" " 77").
Proof. apply first_step_layer_marker. by vm_compute. Qed.

Lemma step_saturates_witness :
  marker_at sample_past_end 1 (text_layer "step" " 77") ∧
  Py.int (text (text_layer "step" " 77")) = Some 77 ∧
  maximum (keys (extract_relevant_groups sample_past_end)) 50 ∧
  ∃ image', increase_step sample_past_end = (Ok tt, image') ∧
            marker_at image' 1 (text_layer "step" "50") ∧
            increase_step image' = (Ok tt, image').
Proof.
  assert (maximum (keys (extract_relevant_groups sample_past_end)) 50)
    as Hmax.
  { assert (keys (extract_relevant_groups sample_past_end) = [30; 50; 10])
      as -> by by vm_compute.
    split; [|intros y]; rewrite !elem_of_cons, elem_of_nil; lia. }
  split; [exact sample_past_end_marker|]. split; [reflexivity|].
  split; [exact Hmax|].
  exact (proj1 (step_saturates sample_past_end 1 _ 77 sample_past_end_marker
                  eq_refl) 50 Hmax ltac:(lia)).
Defined.

Section round_trips.
Lemma update_step_there_and_back direction image ID layer x v :
  marker_at image ID layer → Py.int (text layer) = Some x →
  adjacent_label (keys (extract_relevant_groups image)) x direction = Ok v →
  adjacent_label (keys (extract_relevant_groups image)) v (negb direction)
  = Ok x →
  ∃ image1 image2,
    update_step direction image = (Ok tt, image1) ∧
    update_step (negb direction) image1 = (Ok tt, image2) ∧
    marker_at image2 ID (with_text (Py.str x) layer).
Proof.
  intros Hm Hint Hadj Hback.
  assert (extract_relevant_groups image ≠ ∅) as Hne.
  { intros He. rewrite He, keys_empty, adjacent_label_empty in Hadj. done. }
  destruct (update_step_spec direction _ _ _ _ Hm Hint Hne)
    as (v' & ? & ? & image1 & Hadj' & _ & Hstep1 & Hext1 & Hm1 & _).
  rewrite Hadj in Hadj'. injection Hadj' as <-.
  assert (Py.int (text (with_text (Py.str v) layer)) = Some v) as Hint1
    by apply int_str.
  assert (extract_relevant_groups image1 ≠ ∅) as Hne1 by by rewrite Hext1.
  destruct (update_step_spec (negb direction) _ _ _ _ Hm1 Hint1 Hne1)
    as (x' & ? & ? & image2 & Hadj2 & _ & Hstep2 & _ & Hm2 & _).
  rewrite Hext1, Hback in Hadj2. injection Hadj2 as <-.
  exists image1, image2. split_and!; [done..|].
  by rewrite with_text_idemp in Hm2.
Qed.
End round_trips.

(** X18: if the marker holds a label and there is a label above it,
    [increase_step] followed by [decrease_step] brings the marker back to
    that label; with a label below it, so does [decrease_step] followed by
    [increase_step]. *)
Theorem step_there_and_back (image : gimp) (ID : nat) (layer : item) (x : Z) :
  marker_at image ID layer → Py.int (text layer) = Some x →
  x ∈ dom (extract_relevant_groups image) →
  ((∃ y, y ∈ dom (extract_relevant_groups image) ∧ x < y) →
   ∃ image1 image2,
     increase_step image = (Ok tt, image1) ∧
     decrease_step image1 = (Ok tt, image2) ∧
     marker_at image2 ID (with_text (Py.str x) layer)) ∧
  ((∃ y, y ∈ dom (extract_relevant_groups image) ∧ y < x) →
   ∃ image1 image2,
     decrease_step image = (Ok tt, image1) ∧
     increase_step image1 = (Ok tt, image2) ∧
     marker_at image2 ID (with_text (Py.str x) layer)).
Proof.
  intros Hm Hint Hx%elem_of_keys. split.
  - intros (y & Hy%elem_of_keys & Hlt).
    destruct (adjacent_label_next (keys (extract_relevant_groups image)) x)
      as (v & Hv & H).
    { intros E. rewrite E in Hx. by apply elem_of_nil in Hx. }
    assert (x < v) as Hxv.
    { destruct H as [[_ (_ & ? & _)]|[Hall _]]; [done|].
      apply Hall in Hy. lia. }
    destruct (update_step_there_and_back true image ID layer x v Hm Hint Hv)
      as (image1 & image2 & H1 & H2 & Hm2).
    { by apply adjacent_label_next_back. }
    exists image1, image2.
    by rewrite increase_step_unfold, decrease_step_unfold.
  - intros (y & Hy%elem_of_keys & Hlt).
    destruct (adjacent_label_previous (keys (extract_relevant_groups image)) x)
      as (v & Hv & H).
    { intros E. rewrite E in Hx. by apply elem_of_nil in Hx. }
    assert (v < x) as Hxv.
    { destruct H as [[_ (_ & ? & _)]|[Hall _]]; [done|].
      apply Hall in Hy. lia. }
    destruct (update_step_there_and_back false image ID layer x v Hm Hint Hv)
      as (image1 & image2 & H1 & H2 & Hm2).
    { by apply adjacent_label_previous_forth. }
    exists image1, image2.
    by rewrite increase_step_unfold, decrease_step_unfold.
Qed.

Lemma step_there_and_back_witness :
  marker_at sample 1 (text_layer "step" "30") ∧
  Py.int (text (text_layer "step" "30")) = Some 30 ∧
  30 ∈ dom (extract_relevant_groups sample) ∧
  (∃ y, y ∈ dom (extract_relevant_groups sample) ∧ y < 30) ∧
  ∃ image1 image2,
    decrease_step sample = (Ok tt, image1) ∧
    increase_step image1 = (Ok tt, image2) ∧
    marker_at image2 1 (text_layer "step" "30").
Proof.
  assert (30 ∈ dom (extract_relevant_groups sample)) as H30.
  { rewrite sample_dom, !elem_of_union, !elem_of_singleton. tauto. }
  assert (∃ y, y ∈ dom (extract_relevant_groups sample) ∧ y < 30) as Hbelow.
  { exists 10. split; [|lia].
    rewrite sample_dom, !elem_of_union, !elem_of_singleton. tauto. }
  split; [exact sample_marker|]. split; [reflexivity|].
  split; [exact H30|]. split; [exact Hbelow|].
  exact (proj2 (step_there_and_back sample 1 _ 30 sample_marker eq_refl H30)
           Hbelow).
Defined.

Lemma update_step_outline direction image r image' :
  update_step direction image = (r, image') →
  outline <$> layers image' = outline <$> layers image.
Proof.
  intros Hstep.
  destruct (update_step_cases direction image)
    as [[_ H]|[(? & ? & _ & _ & H)|[(? & ? & ? & _ & _ & _ & H)
       |(ID & layer & c & image1 & Hm & Hint & Hne & H)]]];
    rewrite Hstep in H; injection H as -> ->; [done..|].
  rewrite (update_step_unfold direction _ _ _ _ Hm Hint) in Hstep.
  destruct (adjacent_label_Ok (keys (extract_relevant_groups image)) c
              direction (keys_nonempty _ Hne)) as [v Hv].
  rewrite Hv in Hstep.
  destruct (update_visibility_fold (extract_relevant_groups image) v
              (update (with_text (Py.str v)) (Top ID) image) Hne)
    as (second & third & _ & Hfold).
  { rewrite <- (extract_outline _ _ (outline_set_text (Py.str v) ID image)).
    apply extract_live. }
  rewrite Hfold in Hstep. injection Hstep as <-.
  rewrite outline_foldl_apply_rule. apply outline_set_text.
Qed.

(** X19: a successful step rewrites the text of the marker to the decimal
    string of a label and otherwise changes step groups only: every other
    top-level layer is exactly as before, and so is the label map. *)
Theorem update_step_touches_marker_and_groups (direction : bool)
    (image image' : gimp) (ID : nat) (layer : item) :
  marker_at image ID layer →
  update_step direction image = (Ok tt, image') →
  (∃ new_step,
     new_step ∈ dom (extract_relevant_groups image) ∧
     layers image' !! ID = Some (with_text (Py.str new_step) layer)) ∧
  (∀ ID', ID' ≠ ID →
     (∀ label, extract_relevant_groups image !! label ≠ Some ID') →
     layers image' !! ID' = layers image !! ID') ∧
  extract_relevant_groups image' = extract_relevant_groups image ∧
  length (layers image') = length (layers image).
Proof.
  intros Hm Hstep.
  destruct (update_step_Ok_inv _ _ _ _ Hstep eq_refl)
    as (ID0 & layer0 & c & Hm0 & Hint & Hne).
  destruct (marker_at_unique _ _ _ _ _ Hm Hm0) as [<- <-].
  destruct (update_step_spec direction _ _ _ _ Hm Hint Hne)
    as (v & ? & ? & image1 & Hadj & _ & Hstep1 & Hext & Hm1 & Hin & Hout).
  rewrite Hstep in Hstep1. injection Hstep1 as <-.
  split_and!; [|done..|].
  - exists v. split; [|by destruct Hm1].
    apply elem_of_keys. by eapply adjacent_label_elem_of.
  - rewrite <- (length_fmap outline (layers image')).
    by rewrite (update_step_outline _ _ _ _ Hstep), length_fmap.
Qed.

Lemma update_step_touches_marker_and_groups_witness :
  marker_at sample 1 (text_layer "step" "30") ∧
  ∃ image',
    update_step true sample = (Ok tt, image') ∧
    layers image' !! 3%nat = Some (plain_layer "background" true None).
Proof.
  split; [exact sample_marker|].
  destruct (update_step true sample) as [r image'] eqn:E.
  assert (r = Ok tt) as -> by (vm_compute in E; by injection E as <- _).
  exists image'. split; [reflexivity|].
  destruct (update_step_touches_marker_and_groups true sample image' 1 _
              sample_marker E) as (_ & Hout & _).
  rewrite (Hout 3%nat); [reflexivity|done|].
  intros label Hl. apply extract_lookup in Hl as (layer & Hlayer & Hlabel).
  injection Hlayer as <-. discriminate Hlabel.
Defined.

(** X20: what [update_visibility] makes of a group at or below the step does
    not depend on earlier runs: run for one step and then for another, it
    leaves every group at or below the second step exactly as a single run
    for the second step does. *)
Theorem update_visibility_forgets_earlier_step (groups : gmap Z nat)
    (step1 step2 : Z) (image : gimp) :
  groups ≠ ∅ → live groups image → distinct_groups groups →
  ∃ image1 image12 image2,
    update_visibility groups step1 image = (Ok tt, image1) ∧
    update_visibility groups step2 image1 = (Ok tt, image12) ∧
    update_visibility groups step2 image = (Ok tt, image2) ∧
    ∀ label ID, groups !! label = Some ID → label ≤ step2 →
                layers image12 !! ID = layers image2 !! ID.
Proof.
  intros Hne Hlive Hinj.
  destruct (update_visibility_pointwise groups step1 image Hne Hlive Hinj)
    as (s1 & t1 & image1 & _ & Hupd1 & Hlen1 & Hin1 & _).
  assert (live groups image1) as Hlive1.
  { intros label ID Hl. apply lookup_lt_is_Some. rewrite Hlen1.
    apply lookup_lt_is_Some. by eapply Hlive. }
  destruct (update_visibility_pointwise groups step2 image1 Hne Hlive1 Hinj)
    as (s2 & t2 & image12 & Hft2 & Hupd12 & _ & Hin12 & _).
  destruct (update_visibility_pointwise groups step2 image Hne Hlive Hinj)
    as (s2' & t2' & image2 & Hft2' & Hupd2 & _ & Hin2 & _).
  rewrite Hft2 in Hft2'. injection Hft2' as <- <-.
  exists image1, image12, image2. split_and!; [done..|].
  intros label ID Hl Hle.
  rewrite (Hin12 label ID Hl), (Hin1 label ID Hl), (Hin2 label ID Hl).
  destruct (layers image !! ID) as [g|]; [|done]. simpl. f_equal.
  by apply group_rule_absorb.
Qed.

Lemma update_visibility_forgets_earlier_step_witness :
  extract_relevant_groups sample ≠ ∅ ∧
  live (extract_relevant_groups sample) sample ∧
  distinct_groups (extract_relevant_groups sample) ∧
  ∃ image1 image12,
    update_visibility (extract_relevant_groups sample) 50 sample
    = (Ok tt, image1) ∧
    update_visibility (extract_relevant_groups sample) 30 image1
    = (Ok tt, image12) ∧
    layers image12 !! 4%nat = layers sample !! 4%nat.
Proof.
  assert (distinct_groups (extract_relevant_groups sample)) as Hinj.
  { intros ???. apply extract_inj. }
  split_and!; [exact sample_nonempty|exact (extract_live sample)|exact Hinj|].
  destruct (update_visibility_forgets_earlier_step
              (extract_relevant_groups sample) 50 30 sample sample_nonempty
              (extract_live sample) Hinj)
    as (image1 & image12 & image2 & H1 & H12 & H2 & Hsame).
  exists image1, image12. split_and!; [exact H1|exact H12|].
  rewrite (Hsame 30 4%nat); [|reflexivity|lia].
  rewrite sample_at_30 in H2. by injection H2 as <-.
Defined.
